(** * Summer: a reflection-driven dependency-injection container

    A shallow embedding of the Go package [summer] (the container, its
    pending set and the tag parser) together with the properties that its
    specification states about it.

    Go values are modelled by the inductive [value] (the dynamic content of
    an [interface{}]), Go types by [gotype] (what [reflect.TypeOf] returns),
    the objects that pointers refer to by a heap, and run-time panics by an
    explicit outcome.  A pointer refers to a whole object of the heap;
    struct types are identified by their names.  The order of a [range]
    over a map is a parameter of the loop.  The body of a client's
    [PostInjectionCallback] is client code; the engine's call to it is
    recorded as an event of the trace, after the stores into fields. *)

From stdpp Require Import base option countable gmap strings list fin_maps sorting.
From Stdlib Require Import Ascii ZArith Lia.

(** ** Go types as seen through [reflect] *)

Inductive gotype : Type :=
  | TBool
  | TInt
  | TString
  | TPtr (elem : gotype)
  | TSlice (elem : gotype)
  | TStruct (name : string)
  | TIface (name : string).

Inductive kind : Type :=
  | Bool | Int | String_ | Ptr | Slice | Struct | Interface.

#[global] Instance gotype_eq_dec : EqDecision gotype.
Proof. solve_decision. Defined.

#[global] Instance kind_eq_dec : EqDecision kind.
Proof. solve_decision. Defined.

Fixpoint gotype_encode (t : gotype) : gen_tree (nat + string) :=
  match t with
  | TBool => GenLeaf (inl 0)
  | TInt => GenLeaf (inl 1)
  | TString => GenLeaf (inl 2)
  | TPtr e => GenNode 0 [gotype_encode e]
  | TSlice e => GenNode 1 [gotype_encode e]
  | TStruct n => GenNode 2 [GenLeaf (inr n)]
  | TIface n => GenNode 3 [GenLeaf (inr n)]
  end.

Fixpoint gotype_decode (g : gen_tree (nat + string)) : option gotype :=
  match g with
  | GenLeaf (inl 0) => Some TBool
  | GenLeaf (inl 1) => Some TInt
  | GenLeaf (inl 2) => Some TString
  | GenNode 0 [e] => TPtr <$> gotype_decode e
  | GenNode 1 [e] => TSlice <$> gotype_decode e
  | GenNode 2 [GenLeaf (inr n)] => Some (TStruct n)
  | GenNode 3 [GenLeaf (inr n)] => Some (TIface n)
  | _ => None
  end.

Lemma gotype_decode_encode t : gotype_decode (gotype_encode t) = Some t.
Proof. induction t as [| | |e IH|e IH|n|n]; simpl; rewrite ?IH; done. Qed.

#[global] Instance gotype_countable : Countable gotype :=
  inj_countable gotype_encode gotype_decode gotype_decode_encode.

(** [reflect.Type.Kind] *)
Definition Kind (t : gotype) : kind :=
  match t with
  | TBool => Bool
  | TInt => Int
  | TString => String_
  | TPtr _ => Ptr
  | TSlice _ => Slice
  | TStruct _ => Struct
  | TIface _ => Interface
  end.

(** [reflect.Type.Elem], on the kinds that have an element type (the
    package calls it on pointers only). *)
Definition Elem (t : gotype) : gotype :=
  match t with
  | TPtr elem | TSlice elem => elem
  | _ => t
  end.

(** ** Go values: what an [interface{}] can hold *)

Definition loc := nat.

#[warnings="-register-all"]
Inductive value : Type :=
  | VNil                                        (* the nil interface *)
  | VBool (b : bool)
  | VInt (n : Z)
  | VString (s : string)
  | VPtr (elem : gotype) (addr : option loc)    (* [None] is a typed nil pointer *)
  | VSlice (elem : gotype) (items : list value)
  | VStruct (name : string) (fields : list value).

Lemma value_eq_dec : ∀ x y : value, {x = y} + {x ≠ y}.
Proof.
  fix IH 1. intros x y.
  decide equality;
    first [ apply (List.list_eq_dec IH) | exact (decide _) ].
Defined.

#[global] Instance value_eq_decision : EqDecision value := value_eq_dec.

(** [reflect.TypeOf]: the dynamic type, [None] for the nil interface. *)
Definition TypeOf (v : value) : option gotype :=
  match v with
  | VNil => None
  | VBool _ => Some TBool
  | VInt _ => Some TInt
  | VString _ => Some TString
  | VPtr e _ => Some (TPtr e)
  | VSlice e _ => Some (TSlice e)
  | VStruct n _ => Some (TStruct n)
  end.

(** A value can be a map key when no slice occurs in it; hashing any other
    value panics at run time. *)
Fixpoint hashable (v : value) : bool :=
  match v with
  | VSlice _ _ => false
  | VStruct _ fields => forallb hashable fields
  | _ => true
  end.

(** Induction over values, with the hypothesis available for every element
    of a slice and every field of a struct. *)
Lemma value_nested_ind (P : value → Prop) :
  P VNil →
  (∀ b, P (VBool b)) →
  (∀ n, P (VInt n)) →
  (∀ s, P (VString s)) →
  (∀ e a, P (VPtr e a)) →
  (∀ e items, Forall P items → P (VSlice e items)) →
  (∀ n fields, Forall P fields → P (VStruct n fields)) →
  ∀ v, P v.
Proof.
  intros HNil HBool HInt HString HPtr HSlice HStruct.
  fix IH 1. intros [ | b | n | s | e a | e items | n fields ].
  - exact HNil.
  - apply HBool.
  - apply HInt.
  - apply HString.
  - apply HPtr.
  - apply HSlice. induction items as [|x xs IHxs]; constructor.
    + apply IH.
    + exact IHxs.
  - apply HStruct. induction fields as [|x xs IHxs]; constructor.
    + apply IH.
    + exact IHxs.
Qed.

Definition value_leaf : Type := (bool + Z) + (string + gotype * option loc).

Fixpoint value_encode (v : value) : gen_tree value_leaf :=
  match v with
  | VNil => GenNode 0 []
  | VBool b => GenLeaf (inl (inl b))
  | VInt n => GenLeaf (inl (inr n))
  | VString s => GenLeaf (inr (inl s))
  | VPtr e a => GenLeaf (inr (inr (e, a)))
  | VSlice e items =>
      GenNode 1 (GenLeaf (inr (inr (e, None))) :: map value_encode items)
  | VStruct n fields =>
      GenNode 2 (GenLeaf (inr (inl n)) :: map value_encode fields)
  end.

Fixpoint value_decode (g : gen_tree value_leaf) : option value :=
  match g with
  | GenNode 0 [] => Some VNil
  | GenLeaf (inl (inl b)) => Some (VBool b)
  | GenLeaf (inl (inr n)) => Some (VInt n)
  | GenLeaf (inr (inl s)) => Some (VString s)
  | GenLeaf (inr (inr (e, a))) => Some (VPtr e a)
  | GenNode 1 (GenLeaf (inr (inr (e, _))) :: ts) =>
      VSlice e <$> mapM value_decode ts
  | GenNode 2 (GenLeaf (inr (inl n)) :: ts) =>
      VStruct n <$> mapM value_decode ts
  | _ => None
  end.

Lemma value_decode_encode v : value_decode (value_encode v) = Some v.
Proof.
  induction v as [ | | | | | e items IH | n fields IH ] using value_nested_ind;
    try reflexivity; simpl.
  - assert (mapM value_decode (map value_encode items) = Some items) as ->;
      [|done].
    induction IH as [|x xs Hx _ IHxs]; simpl; [done|].
    by rewrite Hx; simpl; rewrite IHxs.
  - assert (mapM value_decode (map value_encode fields) = Some fields) as ->;
      [|done].
    induction IH as [|x xs Hx _ IHxs]; simpl; [done|].
    by rewrite Hx; simpl; rewrite IHxs.
Qed.

#[global] Instance value_countable : Countable value :=
  inj_countable value_encode value_decode value_decode_encode.

(** ** The tag parser *)

Module TagParser.

Definition summerTag : string := "summer".
Definition tagAutoInject : string := "auto".
Definition separator : ascii := ","%char.

(** [strings.Split(s, sep)] for a one-byte separator: every occurrence of
    the separator ends a component, so [n] separators give [n + 1]
    components and the empty string gives one empty component. *)
Fixpoint Split (s : string) (sep : ascii) : list string :=
  match s with
  | EmptyString => [EmptyString]
  | String c rest =>
      if decide (c = sep) then EmptyString :: Split rest sep
      else match Split rest sep with
           | hd :: tl => String c hd :: tl
           | [] => [String c EmptyString]
           end
  end.

(** the field tag is parsed into this struct *)
Record fieldTag : Type := mkFieldTag {
  dependencyName : string;
  autoInject : bool
}.

#[global] Instance fieldTag_eq_dec : EqDecision fieldTag.
Proof. solve_decision. Defined.

(** [parseFieldTag]; [None] is the nil [*fieldTag]. *)
Definition parseFieldTag (rawTag : string) : option fieldTag :=
  if decide (rawTag = "") then None
  else
    let components := Split rawTag separator in
    let shouldAutoInject :=
      if decide (1 < length components) then
        match components !! 1 with
        | Some c => bool_decide (c = tagAutoInject)
        | None => false
        end
      else false in
    Some {| dependencyName := default "" (components !! 0);
            autoInject := shouldAutoInject |}.

(** The reading of the specification's grammar: the string is cut at its
    first separator only, into at most two parts. *)
Fixpoint splitAtFirst (s : string) (sep : ascii) : string * option string :=
  match s with
  | EmptyString => (EmptyString, None)
  | String c rest =>
      if decide (c = sep) then (EmptyString, Some rest)
      else let '(part1, part2) := splitAtFirst rest sep in
           (String c part1, part2)
  end.

Definition parseFieldTag_two_parts (rawTag : string) : option fieldTag :=
  if decide (rawTag = "") then None
  else
    let '(part1, part2) := splitAtFirst rawTag separator in
    Some {| dependencyName := part1;
            autoInject := bool_decide (part2 = Some tagAutoInject) |}.

(** Joining components with the separator, and separator-free strings. *)
Fixpoint Join (parts : list string) (sep : ascii) : string :=
  match parts with
  | [] => EmptyString
  | [p] => p
  | p :: ps => p +:+ String sep (Join ps sep)
  end.

Fixpoint sepFree (sep : ascii) (s : string) : Prop :=
  match s with
  | EmptyString => True
  | String c rest => c ≠ sep ∧ sepFree sep rest
  end.

End TagParser.

(** ** Struct declarations, method sets, errors and panics *)

(** [reflect.StructField]: [PkgPath] is empty exactly for exported fields;
    [Tag] maps a tag key to its value. *)
Record StructField : Type := mkStructField {
  Name : string;
  PkgPath : string;
  Type_ : gotype;
  Tag : gmap string string
}.

(** [StructTag.Get]: the value under the key, the empty string when absent. *)
Definition Tag_Get (tag : gmap string string) (key : string) : string :=
  default "" (tag !! key).

(** The declarations of the program that uses the container: the fields of
    every struct type in declaration order, and which types implement which
    interface. *)
Record TypeEnv : Type := mkTypeEnv {
  structFields : string → list StructField;
  implements : gotype → string → bool
}.

Definition PostInjector : string := "PostInjector".

(** The three errors the package builds with [errors.New]; the constructor
    arguments are the arguments of the message's format. *)
Inductive error : Type :=
  | InvalidTargetKind
  | MissingNamedDependency (dependencyName : string) (elementType : gotype)
      (fieldName : string)
  | MissingTypedDependency (elementType : gotype) (fieldName : string)
      (matchingType : gotype).

Inductive panic : Type :=
  | NilTypeMethodCall      (* a method called on the nil [reflect.Type] *)
  | HashOfUnhashableType   (* a map key that cannot be hashed *)
  | ElemOfNonPointer       (* [Value.Elem] on neither pointer nor interface *)
  | TypeOfZeroValue        (* [Value.Type] on the zero [Value] *)
  | NumFieldOfNonStruct    (* [Value.NumField] on a non-struct *)
  | SetUsingZeroValue      (* [Value.Set] with [reflect.ValueOf(nil)] *)
  | SetNotAssignable       (* [Value.Set] with a value of another type *)
  | SetUnsettable          (* [Value.Set] on an unexported field *)
  | InvalidMemory.         (* a dangling handle; excluded by Go's typing *)

#[global] Instance error_eq_dec : EqDecision error.
Proof. solve_decision. Defined.

#[global] Instance panic_eq_dec : EqDecision panic.
Proof. solve_decision. Defined.

Inductive outcome (A : Type) : Type :=
  | Done (a : A)
  | Panicked (p : panic).
Arguments Done {A} a.
Arguments Panicked {A} p.

(** ** The pending set *)

Module interfaceSet.

(** [map[interface{}]bool]; every stored flag is [true], so the keys are
    the whole content. *)
Record t : Type := mk { set : gset value }.

Definition newInterfaceSet : t := {| set := ∅ |}.

(** Returns false if the item was already part of the set, otherwise
    true; indexing the map hashes the key. *)
Definition Add (s : t) (target : value) : outcome (bool * t) :=
  if hashable target then
    let present := bool_decide (target ∈ set s) in
    Done (negb present, {| set := {[ target ]} ∪ set s |})
  else Panicked HashOfUnhashableType.

(** A [range] over the map visits every key once, in an order the run
    time chooses: a schedule is such a choice, and it is a range order for
    a set when it lists exactly the keys of the set. *)
Definition schedule : Type := gset value → list value.

Definition rangeOrder (pick : schedule) (s : t) : Prop :=
  pick (set s) ≡ₚ elements (set s).

End interfaceSet.

(** ** The container and the machine state *)

Record Container : Type := mkContainer {
  dependenciesByName : gmap string value;
  dependenciesByType : gmap (option gotype) value;
  possibleInjectionSet : interfaceSet.t
}.

Definition NewContainer : Container :=
  {| dependenciesByName := ∅;
     dependenciesByType := ∅;
     possibleInjectionSet := interfaceSet.newInterfaceSet |}.

(** What the engine does to the world outside the container: a store into
    a field, and a call of a target's [PostInjectionCallback]. *)
Inductive event : Type :=
  | EvSet (addr : loc) (index : nat) (x : value)
  | EvHook (target : value).

#[global] Instance event_eq_dec : EqDecision event.
Proof. solve_decision. Defined.

Record State : Type := mkState {
  container : Container;
  heap : gmap loc value;
  trace : list event
}.

(** Computations: they read and write the state and either return or
    panic; a Go [error] is an ordinary return value. *)
Definition M (A : Type) : Type := State → outcome A * State.

Definition ret {A} (a : A) : M A := λ st, (Done a, st).

Definition bind {A B} (m : M A) (k : A → M B) : M B :=
  λ st, match m st with
        | (Done a, st') => k a st'
        | (Panicked p, st') => (Panicked p, st')
        end.

Definition throw {A} (p : panic) : M A := λ st, (Panicked p, st).

Definition lift {A} (o : outcome A) : M A := λ st, (o, st).

Definition getContainer : M Container := λ st, (Done (container st), st).

Definition putContainer (c : Container) : M unit :=
  λ st, (Done tt, {| container := c; heap := heap st; trace := trace st |}).

Definition emit (e : event) : M unit :=
  λ st, (Done tt, {| container := container st; heap := heap st;
                     trace := trace st ++ [e] |}).

Declare Scope go_scope.
Delimit Scope go_scope with go.
Notation "'do' x <- m ; k" := (bind m (λ x, k))
  (at level 10, x name, m at level 100, k at level 200,
   format "'[v' 'do'  x  <-  m ; '/' k ']'") : go_scope.
Notation "m ;; k" := (bind m (λ _, k))
  (at level 100, k at level 200, right associativity) : go_scope.
Local Open Scope go_scope.


(** ** The injection engine *)

(** A [reflect.Value] for one field of a struct that lives in the heap:
    where the struct is, which field it is, the field's type, and whether
    the field may be set (it is addressable here, so: whether it is
    exported). *)
Record fieldValue : Type := mkFieldValue {
  addr : loc;
  index : nat;
  typ : gotype;
  CanSet : bool
}.

(** struct to hold the sprawling number of arguments passed around for
    injection *)
Record injectionPoint : Type := mkInjectionPoint {
  elementType : gotype;
  field : fieldValue;
  typeField : StructField
}.

Section Engine.

Variable env : TypeEnv.

(** Go's assignability for the types of the model: identical types, or an
    interface that the value's type implements. *)
Definition assignable (x T : gotype) : bool :=
  bool_decide (x = T)
  || match T with
     | TIface i => implements env x i
     | _ => false
     end.

(** [v.Set(reflect.ValueOf(x))] on a field. *)
Definition Value_Set (v : fieldValue) (x : value) : M unit :=
  λ st,
    if negb (CanSet v) then (Panicked SetUnsettable, st)
    else match TypeOf x with
         | None => (Panicked SetUsingZeroValue, st)
         | Some tx =>
             if assignable tx (typ v) then
               match heap st !! addr v with
               | Some (VStruct n fields) =>
                   if decide (index v < length fields) then
                     (Done tt,
                      {| container := container st;
                         heap := <[addr v := VStruct n (<[index v := x]> fields)]>
                                   (heap st);
                         trace := trace st ++ [EvSet (addr v) (index v) x] |})
                   else (Panicked InvalidMemory, st)
               | _ => (Panicked InvalidMemory, st)
               end
             else (Panicked SetNotAssignable, st)
         end.

(** Gets the type of target after a dereference (if necessary); on the nil
    [reflect.Type] the call of [Kind] panics. *)
Definition getDereferencedType (target : value) : outcome gotype :=
  match TypeOf target with
  | None => Panicked NilTypeMethodCall
  | Some targetType =>
      if decide (Kind targetType = Ptr) then Done (Elem targetType)
      else Done targetType
  end.

Definition isPointerToStruct (target : value) : outcome bool :=
  match getDereferencedType target with
  | Done targetType => Done (bool_decide (Kind targetType = Struct))
  | Panicked p => Panicked p
  end.

(** [_, ok := target.(PostInjector)] *)
Definition isPostInjector (target : value) : bool :=
  match TypeOf target with
  | Some t => implements env t PostInjector
  | None => false
  end.

Definition performPostInjectionHook (target : value) : M unit :=
  if isPostInjector target then emit (EvHook target) else ret tt.

(** Adds a new dependency to the container. *)
Definition Add (target : value) (name : string) : M unit :=
  (do c <- getContainer;
   if decide (name ≠ "") then
     putContainer
       {| dependenciesByName := <[name := target]> (dependenciesByName c);
          dependenciesByType := dependenciesByType c;
          possibleInjectionSet := possibleInjectionSet c |}
   else ret tt) ;;
  (do c <- getContainer;
   putContainer
     {| dependenciesByName := dependenciesByName c;
        dependenciesByType :=
          <[TypeOf target := target]> (dependenciesByType c);
        possibleInjectionSet := possibleInjectionSet c |}) ;;
  do ok <- lift (isPointerToStruct target);
  if ok : bool then
    do c <- getContainer;
    do r <- lift (interfaceSet.Add (possibleInjectionSet c) target);
    putContainer
      {| dependenciesByName := dependenciesByName c;
         dependenciesByType := dependenciesByType c;
         possibleInjectionSet := r.2 |}
  else ret tt.

(** Returns a named dependency from the container. *)
Definition Get (name : string) : M (value * bool) :=
  do c <- getContainer;
  match dependenciesByName c !! name with
  | Some dependency => ret (dependency, true)
  | None => ret (VNil, false)
  end.

Definition performNamedInjection (p : injectionPoint) (dependencyName : string)
  : M (option error) :=
  do c <- getContainer;
  match dependenciesByName c !! dependencyName with
  | Some dependency => Value_Set (field p) dependency ;; ret None
  | None =>
      ret (Some (MissingNamedDependency dependencyName (elementType p)
                   (Name (typeField p))))
  end.

Definition performAutoInjection (p : injectionPoint) : M (option error) :=
  let matchingType := Type_ (typeField p) in
  do c <- getContainer;
  match dependenciesByType c !! Some matchingType with
  | Some dependency => Value_Set (field p) dependency ;; ret None
  | None =>
      ret (Some (MissingTypedDependency (elementType p) (Name (typeField p))
                   matchingType))
  end.

Definition performInjection (p : injectionPoint) : M (option error) :=
  match TagParser.parseFieldTag (Tag_Get (Tag (typeField p)) TagParser.summerTag) with
  | Some tag =>
      if CanSet (field p) then
        if negb (TagParser.autoInject tag) then
          performNamedInjection p (TagParser.dependencyName tag)
        else performAutoInjection p
      else ret None
  | None => ret None
  end.

(** The loop of [iterateFields]: [fields] are the declarations from
    [index] on. *)
Fixpoint iterateFields_from (callback : injectionPoint → M (option error))
    (elementType : gotype) (element : loc) (fields : list StructField)
    (index : nat) : M (option error) :=
  match fields with
  | [] => ret None
  | tf :: rest =>
      let ip := {| field := {| addr := element; index := index;
                               typ := Type_ tf;
                               CanSet := bool_decide (PkgPath tf = "") |};
                   typeField := tf;
                   elementType := elementType |} in
      do err <- callback ip;
      match err with
      | Some e => ret (Some e)
      | None => iterateFields_from callback elementType element rest (S index)
      end
  end.

(** Iterate over all of the fields in the given (assumed) struct, calling
    the callback function for each one *)
Definition iterateFields (target : value)
    (callback : injectionPoint → M (option error)) : M (option error) :=
  match target with
  | VPtr elementType (Some element) =>
      match elementType with
      | TStruct n =>
          iterateFields_from callback elementType element (structFields env n) 0
      | _ => throw NumFieldOfNonStruct
      end
  | VPtr _ None => throw TypeOfZeroValue
  | _ => throw ElemOfNonPointer
  end.

(** Actual implementation of InjectInto. *)
Definition realInjectInto (target : value) (performHook : bool)
  : M (option error) :=
  do ok <- lift (isPointerToStruct target);
  if negb ok then ret (Some InvalidTargetKind)
  else
    do err <- iterateFields target performInjection;
    match err with
    | Some e => ret (Some e)
    | None =>
        (if performHook then performPostInjectionHook target else ret tt) ;;
        ret None
    end.

Definition InjectInto (target : value) : M (option error) :=
  realInjectInto target true.

(** The loop of [EachElement] over the keys in the order of the visit; the
    variable the closure captures is passed along. *)
Fixpoint rangeKeys {A} (keys : list value) (callback : value → A → M A)
    (captured : A) : M A :=
  match keys with
  | [] => ret captured
  | key :: rest =>
      do captured' <- callback key captured;
      rangeKeys rest callback captured'
  end.

(** [EachElement]: a [range] over the map, in the order [pick] chooses for
    it. *)
Definition EachElement {A} (pick : interfaceSet.schedule) (s : interfaceSet.t)
    (callback : value → A → M A) (captured : A) : M A :=
  rangeKeys (pick (interfaceSet.set s)) callback captured.

(** The closure of the first loop of [PerformInjections]; [err] is the
    variable it captures. *)
Definition injectAll (key : value) (err : option error) : M (option error) :=
  match err with
  | None => realInjectInto key false
  | Some e => ret (Some e)
  end.

(** Injects dependencies for every struct that has been added to the
    container; [pick1] and [pick2] are the orders the run time chooses for
    the two [range] loops. *)
Definition PerformInjections (pick1 pick2 : interfaceSet.schedule)
  : M (option error) :=
  do c <- getContainer;
  do err <- EachElement pick1 (possibleInjectionSet c) injectAll None;
  (* run hooks after all dependencies are injected successfully *)
  (match err with
   | None =>
       do c' <- getContainer;
       EachElement pick2 (possibleInjectionSet c')
         (λ key _, performPostInjectionHook key) tt
   | Some _ => ret tt
   end) ;;
  ret err.

End Engine.


(** ** The declarations and objects of the package's own tests *)

Module Tests.

Definition tagged (name : string) (t : gotype) (tag : string) : StructField :=
  {| Name := name; PkgPath := ""; Type_ := t;
     Tag := {[ TagParser.summerTag := tag ]} |}.

Definition untagged (name pkg : string) (t : gotype) : StructField :=
  {| Name := name; PkgPath := pkg; Type_ := t; Tag := ∅ |}.

Definition circularStructOne : gotype := TStruct "circularStructOne".
Definition circularStructTwo : gotype := TStruct "circularStructTwo".
Definition hookTestingStruct : gotype := TStruct "hookTestingStruct".
Definition missingStruct : gotype := TStruct "missingStruct".
Definition simpleStruct : gotype := TStruct "simpleStruct".

(** The struct types of the tests, and the one method set that matters:
    [*hookTestingStruct] has [PostInjectionCallback]. *)
Definition env : TypeEnv :=
  {| structFields := λ n,
       if decide (n = "circularStructOne") then
         [tagged "Two" (TPtr circularStructTwo) "2"]
       else if decide (n = "circularStructTwo") then
         [tagged "One" (TPtr circularStructOne) "1"]
       else if decide (n = "hookTestingStruct") then
         [untagged "called" "summer" TBool]
       else if decide (n = "missingStruct") then
         [tagged "Missing" TString "Missing"]
       else if decide (n = "simpleStruct") then
         [tagged "AvailableString" TString "HasIt";
          tagged "UnavailableString" TString "Doesn'tHaveIt";
          tagged "Later" TString "HasIt"]
       else [];
     implements := λ t i,
       bool_decide (t = TPtr hookTestingStruct ∧ i = PostInjector) |}.

Definition s1 : value := VPtr circularStructOne (Some 1).
Definition s2 : value := VPtr circularStructTwo (Some 2).
Definition h : value := VPtr hookTestingStruct (Some 3).
Definition m : value := VPtr missingStruct (Some 4).
Definition s : value := VPtr simpleStruct (Some 5).

(** The heap after [new] of each of them: zero values in every field. *)
Definition heap0 : gmap loc value :=
  {[ 1 := VStruct "circularStructOne" [VPtr circularStructTwo None];
     2 := VStruct "circularStructTwo" [VPtr circularStructOne None];
     3 := VStruct "hookTestingStruct" [VBool false];
     4 := VStruct "missingStruct" [VString ""];
     5 := VStruct "simpleStruct" [VString ""; VString ""; VString ""] ]}.

Definition start : State :=
  {| container := NewContainer; heap := heap0; trace := [] |}.

(** The state a computation leaves behind, and what it returns. *)
Definition after {A} (c : M A) (st : State) : State := (c st).2.
Definition result {A} (c : M A) (st : State) : outcome A := (c st).1.

End Tests.

(** * Vocabulary of the specification *)

Definition isSet (e : event) : Prop :=
  match e with EvSet _ _ _ => True | EvHook _ => False end.

(** What injecting into the struct at [a] may do to the state: the
    container stays, every other object stays, the struct at [a] keeps its
    type and its number of fields, and the trace grows by stores into it. *)
Record injects_at (a : loc) (st st' : State) : Prop := mkInjectsAt {
  ia_container : container st' = container st;
  ia_others : ∀ l, l ≠ a → heap st' !! l = heap st !! l;
  ia_cell : ∀ n fields, heap st !! a = Some (VStruct n fields) →
            ∃ fields', heap st' !! a = Some (VStruct n fields')
                       ∧ length fields' = length fields;
  ia_trace : ∃ sets, trace st' = trace st ++ sets
                     ∧ Forall (λ e, ∃ i x, e = EvSet a i x) sets
}.

(** The footprint of an injection into [target]: the struct the target
    points to, nothing when the target points nowhere. *)
Definition injects_into (target : value) (st st' : State) : Prop :=
  match target with
  | VPtr _ (Some a) => injects_at a st st'
  | _ => st' = st
  end.

Definition hooked (target : value) (st : State) : State :=
  {| container := container st; heap := heap st;
     trace := trace st ++ [EvHook target] |}.

(** What the state may look like after any part of the first loop of
    [PerformInjections]: only stores into members of [order] happened. *)
Record injects_among (order : list value) (st st' : State) : Prop := mkInjectsAmong {
  im_container : container st' = container st;
  im_others : ∀ l, (∀ t, VPtr t (Some l) ∉ order) → heap st' !! l = heap st !! l;
  im_trace : ∃ sets, trace st' = trace st ++ sets ∧ Forall isSet sets
}.

(** What the container decides for a field declaration, before anything is
    stored: nothing to do, a dependency to assign, or an error. *)
Inductive resolution : Type :=
  | Skipped
  | Found (dependency : value)
  | Missing (e : error).

Definition resolve (c : Container) (T : gotype) (tf : StructField) : resolution :=
  match TagParser.parseFieldTag (Tag_Get (Tag tf) TagParser.summerTag) with
  | None => Skipped
  | Some tag =>
      if bool_decide (PkgPath tf = "") then
        if TagParser.autoInject tag then
          match dependenciesByType c !! Some (Type_ tf) with
          | Some dependency => Found dependency
          | None => Missing (MissingTypedDependency T (Name tf) (Type_ tf))
          end
        else
          match dependenciesByName c !! TagParser.dependencyName tag with
          | Some dependency => Found dependency
          | None =>
              Missing (MissingNamedDependency (TagParser.dependencyName tag) T
                         (Name tf))
          end
      else Skipped
  end.

(** The injection point [iterateFields] builds for field [k]. *)
Definition pointOf (T : gotype) (a : loc) (k : nat) (tf : StructField)
  : injectionPoint :=
  {| elementType := T;
     field := {| addr := a; index := k; typ := Type_ tf;
                 CanSet := bool_decide (PkgPath tf = "") |};
     typeField := tf |}.

Definition stored (a : loc) (k : nat) (n : string) (fields : list value)
    (x : value) (st : State) : State :=
  {| container := container st;
     heap := <[a := VStruct n (<[k := x]> fields)]> (heap st);
     trace := trace st ++ [EvSet a k x] |}.



(** A run of registrations, in order. *)
Fixpoint AddAll (adds : list (value * string)) : M unit :=
  match adds with
  | [] => ret tt
  | (target, name) :: rest => Add target name ;; AddAll rest
  end.

(** The container after the two map stores of [Add]. *)
Definition mapsStored (c : Container) (target : value) (name : string)
  : Container :=
  {| dependenciesByName :=
       if decide (name ≠ "") then <[name := target]> (dependenciesByName c)
       else dependenciesByName c;
     dependenciesByType := <[TypeOf target := target]> (dependenciesByType c);
     possibleInjectionSet := possibleInjectionSet c |}.

Definition withContainer (c : Container) (st : State) : State :=
  {| container := c; heap := heap st; trace := trace st |}.

Definition withSet (s : gset value) (c : Container) : Container :=
  {| dependenciesByName := dependenciesByName c;
     dependenciesByType := dependenciesByType c;
     possibleInjectionSet := {| interfaceSet.set := s |} |}.

(** Pointers to structs: the instances the specification calls
    structurally injectable. *)
Definition pointsToStruct (v : value) : bool :=
  match v with
  | VPtr (TStruct _) _ => true
  | _ => false
  end.

(** The fields of a struct of type [n] once every request among them has
    been served from container [c]: a field whose request resolves holds
    the dependency, every other field keeps its value. *)
Definition injectFields (env : TypeEnv) (c : Container) (n : string)
    (fields : list value) : list value :=
  imap (λ i v, match structFields env n !! i with
               | Some tf =>
                   match resolve c (TStruct n) tf with
                   | Found d => d
                   | _ => v
                   end
               | None => v
               end) fields.

Definition injectCell (env : TypeEnv) (c : Container) (v : value) : value :=
  match v with
  | VStruct n fields => VStruct n (injectFields env c n fields)
  | _ => v
  end.

(** Every entry of the type map is stored under the dynamic type of its
    value. *)
Definition typeMapKeyed (c : Container) : Prop :=
  ∀ T v, dependenciesByType c !! T = Some v → TypeOf v = T.



(** The field a store event writes. *)
Definition storeIndex (e : event) : nat :=
  match e with
  | EvSet _ i _ => i
  | EvHook _ => 0
  end.

(** Each object of [h] is as it was in [h0], or as injection from [c]
    leaves it. *)
Definition settlingFrom (env : TypeEnv) (c : Container) (h0 h : gmap loc value)
  : Prop :=
  ∀ l, h !! l = h0 !! l ∨ h !! l = injectCell env c <$> h0 !! l.

(** The states and schedules of the package's tests. *)

Module Scenarios.

Import Tests.


(** [TestSkipsHooksOnFailedInjections]. *)
Definition skipping : State := after (Add m "" ;; Add h "") start.

(** [TestThrowsErrorForMissingDependency], with a third field after the
    failing one. *)
Definition partly : State := after (Add (VString "ok") "HasIt") start.

Definition partly_aborted : State :=
  after (iterateFields_from (performInjection env) simpleStruct 5
           [tagged "AvailableString" TString "HasIt"] 0) partly.

(** [TestAutoInjects], with two strings registered. *)
Definition twoStrings : list (value * string) :=
  [(VString "first", ""); (VString "ok", "")].

Definition autoString : StructField := tagged "AutoString" TString ",auto".

(** Two choices the run time can make for a [range]. *)
Definition ascending : interfaceSet.schedule := elements.
Definition descending : interfaceSet.schedule := λ s, reverse (elements s).

(** The two structs of the circular test, registered. *)
Definition circularAdds : list (value * string) := [(s1, "1"); (s2, "2")].

(** A hook target registered twice, under two names. *)
Definition hookTwice : list (value * string) := [(h, ""); (h, "again")].

(** [TestSkipsHooksOnFailedInjections], as registrations. *)
Definition skippingAdds : list (value * string) := [(m, ""); (h, "")].

(** A field whose tag holds the separator only. *)
Definition oddField : StructField := tagged "Odd" TString ",".

(** A nil [*simpleStruct], registered. *)
Definition nilPointer : value := VPtr simpleStruct None.
Definition withNilPointer : State := after (Add nilPointer "") start.

End Scenarios.

(** * Properties *)

(** ** Running computations *)

Lemma injects_at_refl a st : injects_at a st st.
Proof.
  split; [done | done | eauto |].
  exists []. by rewrite app_nil_r.
Qed.

Lemma injects_at_trans a st1 st2 st3 :
  injects_at a st1 st2 → injects_at a st2 st3 → injects_at a st1 st3.
Proof.
  intros [Hc1 Ho1 Hl1 (s1 & Ht1 & Hs1)] [Hc2 Ho2 Hl2 (s2 & Ht2 & Hs2)].
  split.
  - congruence.
  - intros k Hk. rewrite Ho2, Ho1; done.
  - intros n fields Hcell.
    destruct (Hl1 _ _ Hcell) as (f1 & Hf1 & Hlen1).
    destruct (Hl2 _ _ Hf1) as (f2 & Hf2 & Hlen2).
    exists f2. split; [done | congruence].
  - exists (s1 ++ s2). split.
    + rewrite Ht2, Ht1. by rewrite app_assoc.
    + by apply Forall_app.
Qed.

Lemma bind_Done {A B} (m : M A) (k : A → M B) st a st' :
  m st = (Done a, st') → bind m k st = k a st'.
Proof. intros H. unfold bind. by rewrite H. Qed.

(** A computation built with [bind] keeps a transitive footprint when both
    halves do. *)
Lemma bind_footprint {A B} (R : State → State → Prop) (m : M A) (k : A → M B) :
  (∀ s1 s2 s3, R s1 s2 → R s2 s3 → R s1 s3) →
  (∀ st, R st (m st).2) →
  (∀ a st, R st (k a st).2) →
  ∀ st, R st (bind m k st).2.
Proof.
  intros Htrans Hm Hk st. unfold bind.
  specialize (Hm st). destruct (m st) as [[a|p] st1]; simpl in *.
  - eapply Htrans; [exact Hm | apply Hk].
  - exact Hm.
Qed.

Section Footprints.

Variable env : TypeEnv.

Lemma Value_Set_footprint v x st : injects_at (addr v) st (Value_Set env v x st).2.
Proof.
  unfold Value_Set.
  destruct (negb (CanSet v)); [apply injects_at_refl|].
  destruct (TypeOf x) as [tx|]; [|apply injects_at_refl].
  destruct (assignable env tx (typ v)); [|apply injects_at_refl].
  destruct (heap st !! addr v) as [[| | | | | |n fields]|] eqn:Hcell;
    try apply injects_at_refl.
  destruct (decide (index v < length fields)) as [Hlt|];
    [|apply injects_at_refl].
  simpl. split; simpl.
  - done.
  - intros l Hl. by rewrite lookup_insert_ne.
  - intros n' fields' Heq. rewrite Hcell in Heq. simplify_eq.
    eexists. rewrite lookup_insert_eq. split; [done|].
    by rewrite length_insert.
  - eexists. split; [done|]. repeat constructor. eauto.
Qed.

Lemma performInjection_footprint p st :
  injects_at (addr (field p)) st (performInjection env p st).2.
Proof.
  unfold performInjection.
  destruct (TagParser.parseFieldTag _) as [tag|]; [|apply injects_at_refl].
  destruct (CanSet (field p)); [|apply injects_at_refl].
  destruct (negb (TagParser.autoInject tag)).
  - unfold performNamedInjection.
    apply bind_footprint;
      [apply injects_at_trans | intros; apply injects_at_refl |].
    intros c st1.
    destruct (dependenciesByName c !! _); [|apply injects_at_refl].
    apply bind_footprint;
      [apply injects_at_trans | intros; apply Value_Set_footprint
      | intros; apply injects_at_refl].
  - unfold performAutoInjection.
    apply bind_footprint;
      [apply injects_at_trans | intros; apply injects_at_refl |].
    intros c st1.
    destruct (dependenciesByType c !! _); [|apply injects_at_refl].
    apply bind_footprint;
      [apply injects_at_trans | intros; apply Value_Set_footprint
      | intros; apply injects_at_refl].
Qed.

Lemma iterateFields_from_footprint T a fields i st :
  injects_at a st (iterateFields_from (performInjection env) T a fields i st).2.
Proof.
  revert i st. induction fields as [|tf rest IH]; intros i st; simpl.
  - apply injects_at_refl.
  - apply bind_footprint with (R := injects_at a);
      [apply injects_at_trans
      | intros st0;
        apply (performInjection_footprint
                 (mkInjectionPoint _ (mkFieldValue a _ _ _) _)) |].
    intros [e|] st1; [apply injects_at_refl | apply IH].
Qed.

End Footprints.

Lemma injects_into_container target st st' :
  injects_into target st st' → container st' = container st.
Proof.
  destruct target as [| | | |t [a|]| |]; simpl; try by intros ->.
  by intros [].
Qed.

Lemma injects_into_trace target st st' :
  injects_into target st st' →
  ∃ sets, trace st' = trace st ++ sets ∧ Forall isSet sets.
Proof.
  assert (Hrefl : st' = st → ∃ sets, trace st' = trace st ++ sets ∧ Forall isSet sets).
  { intros ->. exists []. by rewrite app_nil_r. }
  destruct target as [| | | |t [a|]| |]; simpl; try exact Hrefl.
  intros [_ _ _ (sets & Ht & Hs)]. exists sets. split; [done|].
  eapply Forall_impl; [exact Hs|]. by intros e (i & x & ->).
Qed.

Lemma injects_into_heap target st st' l :
  injects_into target st st' →
  (∀ t, target ≠ VPtr t (Some l)) →
  heap st' !! l = heap st !! l.
Proof.
  destruct target as [| | | |t [a|]| |]; simpl; try by intros ->.
  intros [_ Ho _ _] Hne. apply Ho. intros ->. by apply (Hne t).
Qed.

Section Injection.

Variable env : TypeEnv.

Lemma iterateFields_footprint target st :
  injects_into target st (iterateFields env target (performInjection env) st).2.
Proof.
  destruct target as [| | | |t [a|]| |]; simpl; try done.
  destruct t; simpl; try apply injects_at_refl.
  apply iterateFields_from_footprint.
Qed.

Lemma performPostInjectionHook_run target st :
  performPostInjectionHook env target st
  = (Done tt, if isPostInjector env target then hooked target st else st).
Proof.
  unfold performPostInjectionHook. by destruct (isPostInjector env target).
Qed.

(** The three ways [realInjectInto] can end. *)
Lemma realInjectInto_cases target performHook st :
  ∃ st1, injects_into target st st1 ∧
    (realInjectInto env target performHook st
       = (Done None, if performHook && isPostInjector env target
                     then hooked target st1 else st1)
     ∨ (∃ e, realInjectInto env target performHook st = (Done (Some e), st1))
     ∨ (∃ p, realInjectInto env target performHook st = (Panicked p, st1))).
Proof.
  assert (Hrefl : injects_into target st st).
  { destruct target as [| | | |t [a|]| |]; simpl; try done.
    apply injects_at_refl. }
  unfold realInjectInto, bind, lift.
  destruct (isPointerToStruct target) as [[|]|p]; simpl.
  - pose proof (iterateFields_footprint target st) as Hfoot.
    destruct (iterateFields env target (performInjection env) st)
      as [[[e|]|p] st1]; simpl in Hfoot; exists st1; (split; [done|]).
    + right; left. by exists e.
    + left. destruct performHook; simpl; [|done].
      rewrite performPostInjectionHook_run.
      by destruct (isPostInjector env target).
    + right; right. by exists p.
  - exists st. split; [done|]. right; left. by exists InvalidTargetKind.
  - exists st. split; [done|]. right; right. by exists p.
Qed.

End Injection.

(** ** Loops over the pending set *)

Lemma rangeKeys_footprint {A} (R : State → State → Prop) order
    (callback : value → A → M A) :
  (∀ st, R st st) →
  (∀ s1 s2 s3, R s1 s2 → R s2 s3 → R s1 s3) →
  (∀ key a st, key ∈ order → R st (callback key a st).2) →
  ∀ a st, R st (rangeKeys order callback a st).2.
Proof.
  intros Hrefl Htrans. induction order as [|key rest IH]; intros Hcb a st; simpl.
  - apply Hrefl.
  - apply bind_footprint; [exact Htrans | |].
    + intros st0. apply Hcb. by left.
    + intros a' st0. apply IH. intros k b s Hk. apply Hcb. by right.
Qed.

(** The hook loop only appends hook events, one per supporting key, in the
    order of the visit. *)
Lemma rangeKeys_hooks env order st :
  rangeKeys order (λ key _, performPostInjectionHook env key) tt st
  = (Done tt,
     {| container := container st; heap := heap st;
        trace := trace st ++ (EvHook <$> filter (λ k, isPostInjector env k = true) order) |}).
Proof.
  revert st. induction order as [|key rest IH]; intros st; simpl.
  - unfold ret. rewrite app_nil_r. by destruct st.
  - unfold bind. rewrite performPostInjectionHook_run.
    rewrite IH. rewrite filter_cons.
    destruct (isPostInjector env key) eqn:Hk; simpl.
    + destruct (decide (true = true)); [|done].
      simpl. by rewrite <- app_assoc.
    + destruct (decide (false = true)); [done|]. done.
Qed.

Lemma injects_among_refl order st : injects_among order st st.
Proof. split; [done | done |]. exists []. by rewrite app_nil_r. Qed.

Lemma injects_among_trans order s1 s2 s3 :
  injects_among order s1 s2 → injects_among order s2 s3 →
  injects_among order s1 s3.
Proof.
  intros [Hc1 Ho1 (t1 & Ht1 & Hs1)] [Hc2 Ho2 (t2 & Ht2 & Hs2)]. split.
  - congruence.
  - intros k Hk. rewrite Ho2, Ho1; done.
  - exists (t1 ++ t2). split; [|by apply Forall_app].
    rewrite Ht2, Ht1. by rewrite app_assoc.
Qed.

Lemma injects_into_among order key st st' :
  key ∈ order → injects_into key st st' → injects_among order st st'.
Proof.
  intros Hin Hinto. split.
  - by eapply injects_into_container.
  - intros l Hl. eapply injects_into_heap; [exact Hinto|].
    intros t ->. by apply (Hl t).
  - by eapply injects_into_trace.
Qed.

Section Bulk.

Variable env : TypeEnv.

Lemma realInjectInto_false_footprint target st :
  injects_into target st (realInjectInto env target false st).2.
Proof.
  destruct (realInjectInto_cases env target false st)
    as (st1 & Hfoot & [H | [(e & H) | (p & H)]]); rewrite H; simpl; done.
Qed.

Lemma injectAll_footprint order err st :
  injects_among order st (rangeKeys order (injectAll env) err st).2.
Proof.
  apply rangeKeys_footprint;
    [apply injects_among_refl | apply injects_among_trans |].
  intros key [e|] st0 Hin; simpl; [apply injects_among_refl|].
  eapply injects_into_among; [exact Hin|].
  apply realInjectInto_false_footprint.
Qed.

Lemma PerformInjections_unfold pick1 pick2 st :
  PerformInjections env pick1 pick2 st
  = match rangeKeys
            (pick1 (interfaceSet.set (possibleInjectionSet (container st))))
            (injectAll env) None st with
    | (Done None, st1) =>
        (Done None,
         {| container := container st1; heap := heap st1;
            trace := trace st1
                     ++ (EvHook <$> filter (λ k, isPostInjector env k = true)
                           (pick2 (interfaceSet.set
                                     (possibleInjectionSet (container st1))))) |})
    | (Done (Some e), st1) => (Done (Some e), st1)
    | (Panicked p, st1) => (Panicked p, st1)
    end.
Proof.
  unfold PerformInjections, EachElement, bind, getContainer. simpl.
  destruct (rangeKeys _ (injectAll env) None st) as [[[e|]|p] st1]; try done.
  by rewrite rangeKeys_hooks.
Qed.

End Bulk.

Lemma rangeKeys_app {A} pre post (callback : value → A → M A) a st :
  rangeKeys (pre ++ post) callback a st
  = bind (rangeKeys pre callback a) (rangeKeys post callback) st.
Proof.
  revert a st. induction pre as [|key rest IH]; intros a st; simpl;
    [reflexivity|].
  unfold bind. destruct (callback key a st) as [[a'|p] st1]; [|done].
  by rewrite IH.
Qed.

Lemma rangeKeys_failed env order e st :
  rangeKeys order (injectAll env) (Some e) st = (Done (Some e), st).
Proof. induction order as [|key rest IH]; simpl; [done|]. exact IH. Qed.

(** ** Post-injection hooks *)

(** C2. In [PerformInjections], when the instances visited before [key]
    are injected without error and [key] fails with [e], the call returns
    [e] and its trace holds no hook call at all; when the whole first loop
    ends without error, the call returns no error and the hook calls, one
    for each member of the set that implements [PostInjector], all come
    after every store. *)
Theorem PerformInjections_hooks_all_or_nothing env pick1 pick2 st :
  interfaceSet.rangeOrder pick2 (possibleInjectionSet (container st)) →
  (∀ pre key post e st1 st2,
     pick1 (interfaceSet.set (possibleInjectionSet (container st)))
     = pre ++ key :: post →
     rangeKeys pre (injectAll env) None st = (Done None, st1) →
     realInjectInto env key false st1 = (Done (Some e), st2) →
     PerformInjections env pick1 pick2 st = (Done (Some e), st2)
     ∧ ∃ sets, Forall isSet sets ∧ trace st2 = trace st ++ sets)
  ∧ (∀ st1,
       rangeKeys (pick1 (interfaceSet.set (possibleInjectionSet (container st))))
         (injectAll env) None st = (Done None, st1) →
       ∃ sets hooks,
         PerformInjections env pick1 pick2 st
         = (Done None, {| container := container st1; heap := heap st1;
                          trace := trace st ++ sets ++ hooks |})
         ∧ Forall isSet sets
         ∧ hooks ≡ₚ EvHook <$> filter (λ k, isPostInjector env k = true)
                      (elements (interfaceSet.set
                                   (possibleInjectionSet (container st))))).
Proof.
  intros Horder2. split.
  - intros pre key post e st1 st2 Hpick Hpre Hkey.
    assert (Hloop : rangeKeys (pre ++ key :: post) (injectAll env) None st
                    = (Done (Some e), st2)).
    { rewrite rangeKeys_app. rewrite (bind_Done _ _ _ _ _ Hpre). simpl.
      unfold bind. rewrite Hkey. apply rangeKeys_failed. }
    split.
    + rewrite PerformInjections_unfold, Hpick. by rewrite Hloop.
    + pose proof (injectAll_footprint env (pre ++ key :: post) None st) as Hf.
      rewrite Hloop in Hf. destruct Hf as [_ _ (sets & Ht & Hs)]. eauto.
  - intros st1 Hloop.
    pose proof (injectAll_footprint env
                  (pick1 (interfaceSet.set (possibleInjectionSet (container st))))
                  None st) as Hf.
    rewrite Hloop in Hf. destruct Hf as [Hc _ (sets & Ht & Hs)].
    simpl in Hc, Ht.
    exists sets,
      (EvHook <$> filter (λ k, isPostInjector env k = true)
         (pick2 (interfaceSet.set (possibleInjectionSet (container st))))).
    split; [|split; [done|]].
    + rewrite PerformInjections_unfold, Hloop. rewrite Ht, Hc.
      by rewrite app_assoc.
    + unfold interfaceSet.rangeOrder in Horder2. by rewrite Horder2.
Qed.

(** ** The container is read-only outside [Add] *)

Lemma InjectInto_footprint env target st :
  ∃ st1, injects_into target st st1
         ∧ container (InjectInto env target st).2 = container st1
         ∧ heap (InjectInto env target st).2 = heap st1.
Proof.
  unfold InjectInto.
  destruct (realInjectInto_cases env target true st)
    as (st1 & Hfoot & [H | [(e & H) | (p & H)]]); rewrite H; simpl;
    exists st1; (split; [done|]); try done.
  by destruct (isPostInjector env target).
Qed.

(** C10. [Get] leaves the whole state as it was.  [InjectInto] and
    [PerformInjections] leave the container (name map, type map and
    injectable set) as it was, whatever they are given and however they
    end; in the heap they write only into the struct their target points
    to (for the bulk call: the structs the visited instances point to),
    which keeps its type and number of fields.  [Add] does change the
    container. *)
Theorem only_Add_changes_the_container env st :
  (∀ name, (Get name st).2 = st)
  ∧ (∀ target,
       container (InjectInto env target st).2 = container st
       ∧ (∀ l, (∀ t, target ≠ VPtr t (Some l)) →
               heap (InjectInto env target st).2 !! l = heap st !! l)
       ∧ (∀ t a n fields,
            target = VPtr t (Some a) →
            heap st !! a = Some (VStruct n fields) →
            ∃ fields',
              heap (InjectInto env target st).2 !! a = Some (VStruct n fields')
              ∧ length fields' = length fields))
  ∧ (∀ pick1 pick2,
       container (PerformInjections env pick1 pick2 st).2 = container st
       ∧ (∀ l, (∀ t, VPtr t (Some l)
                     ∉ pick1 (interfaceSet.set
                                (possibleInjectionSet (container st)))) →
               heap (PerformInjections env pick1 pick2 st).2 !! l
               = heap st !! l))
  ∧ (∀ target name,
       (Add target name st).1 = Done tt →
       dependenciesByType (container (Add target name st).2) !! TypeOf target
       = Some target).
Proof.
  split; [|split; [|split]].
  - intros name. unfold Get, bind, getContainer.
    by destruct (dependenciesByName (container st) !! name).
  - intros target.
    destruct (InjectInto_footprint env target st) as (st1 & Hfoot & Hc & Hh).
    rewrite Hc, Hh. split; [|split].
    + by eapply injects_into_container.
    + intros l Hl. by eapply injects_into_heap.
    + intros t a n fields -> Hcell. simpl in Hfoot.
      by apply (ia_cell _ _ _ Hfoot).
  - intros pick1 pick2. rewrite PerformInjections_unfold.
    pose proof (injectAll_footprint env
                  (pick1 (interfaceSet.set (possibleInjectionSet (container st))))
                  None st) as Hf.
    destruct (rangeKeys _ (injectAll env) None st) as [[[e|]|p] st1];
      simpl in *; destruct Hf as [Hc Ho _]; split; done.
  - intros target name. unfold Add, bind, getContainer, putContainer, lift.
    destruct (decide (name ≠ "")); simpl;
      (destruct (isPointerToStruct target) as [[|]|p]; simpl; [| |done]);
      try (destruct (interfaceSet.Add _ target) as [[b s']|p]; simpl; [|done]);
      intros _; apply lookup_insert_eq.
Qed.

(** ** Resolution of one field *)

Section Resolution.

Variable env : TypeEnv.

Lemma performInjection_resolve T a k tf st :
  performInjection env (pointOf T a k tf) st
  = match resolve (container st) T tf with
    | Skipped => (Done None, st)
    | Missing e => (Done (Some e), st)
    | Found d =>
        match Value_Set env (field (pointOf T a k tf)) d st with
        | (Done _, st1) => (Done None, st1)
        | (Panicked p, st1) => (Panicked p, st1)
        end
    end.
Proof.
  unfold performInjection, resolve, pointOf. simpl.
  destruct (TagParser.parseFieldTag _) as [tag|]; [|done].
  destruct (bool_decide (PkgPath tf = "")); [|done].
  destruct (TagParser.autoInject tag); simpl.
  - unfold performAutoInjection, bind, getContainer. simpl.
    destruct (dependenciesByType (container st) !! Some (Type_ tf));
      [|reflexivity].
    by destruct (Value_Set env _ _ st) as [[[]|p] st1].
  - unfold performNamedInjection, bind, getContainer. simpl.
    destruct (dependenciesByName (container st) !! _); [|reflexivity].
    by destruct (Value_Set env _ _ st) as [[[]|p] st1].
Qed.

Lemma Value_Set_inv v x st r st1 :
  Value_Set env v x st = (r, st1) →
  (∃ p, r = Panicked p ∧ st1 = st)
  ∨ (∃ n fields tx,
       r = Done tt ∧ heap st !! addr v = Some (VStruct n fields)
       ∧ index v < length fields ∧ CanSet v = true
       ∧ TypeOf x = Some tx ∧ assignable env tx (typ v) = true
       ∧ st1 = stored (addr v) (index v) n fields x st).
Proof.
  unfold Value_Set.
  destruct (CanSet v); simpl; [|intros [= <- <-]; eauto].
  destruct (TypeOf x) as [tx|]; [|intros [= <- <-]; eauto].
  destruct (assignable env tx (typ v)) eqn:Hassign; [|intros [= <- <-]; eauto].
  destruct (heap st !! addr v) as [[| | | | | |n fields]|] eqn:Hcell;
    try (intros [= <- <-]; eauto).
  destruct (decide (index v < length fields)) as [Hlt|];
    intros [= <- <-]; [|eauto].
  right. by exists n, fields, tx.
Qed.

Lemma Value_Set_ok v x st n fields tx :
  CanSet v = true → TypeOf x = Some tx → assignable env tx (typ v) = true →
  heap st !! addr v = Some (VStruct n fields) → index v < length fields →
  Value_Set env v x st = (Done tt, stored (addr v) (index v) n fields x st).
Proof.
  intros Hset Htx Hassign Hcell Hlt. unfold Value_Set.
  rewrite Hset, Htx, Hassign, Hcell. simpl.
  by destruct (decide (index v < length fields)).
Qed.

(** The loop over the declarations [fs], started at index [k]: it stores
    only at the indices it visits, and when it ends without error every
    visited field holds what the container resolved for it. *)
Lemma iterateFields_from_spec T a fs :
  ∀ k st r st1 n fields,
    iterateFields_from (performInjection env) T a fs k st = (r, st1) →
    heap st !! a = Some (VStruct n fields) →
    ∃ fields1,
      heap st1 !! a = Some (VStruct n fields1)
      ∧ length fields1 = length fields
      ∧ (∀ i, i < k ∨ k + length fs ≤ i → fields1 !! i = fields !! i)
      ∧ (r = Done None →
         ∀ j tf, fs !! j = Some tf →
           match resolve (container st) T tf with
           | Found d => fields1 !! (k + j) = Some d
           | Skipped => fields1 !! (k + j) = fields !! (k + j)
           | Missing _ => False
           end).
Proof.
  induction fs as [|tf rest IH]; intros k st r st1 n fields Hrun Hcell.
  - simpl in Hrun. injection Hrun as <- <-.
    exists fields. repeat split; try done.
  - simpl in Hrun. fold (pointOf T a k tf) in Hrun. unfold bind in Hrun.
    rewrite performInjection_resolve in Hrun.
    destruct (resolve (container st) T tf) as [|d|e] eqn:Hres.
    + (* skipped *)
      destruct (IH _ _ _ _ _ _ Hrun Hcell) as (fields1 & H1 & Hlen & Hout & Hin).
      exists fields1. split; [done|]. split; [done|]. split.
      * intros i Hi. apply Hout. simpl in Hi. lia.
      * intros Hr [|j] tf' Hj; simpl in Hj.
        -- injection Hj as <-. rewrite Hres. rewrite Nat.add_0_r.
           apply Hout. lia.
        -- specialize (Hin Hr j tf' Hj).
           by replace (k + S j) with (S k + j) by lia.
    + (* found *)
      destruct (Value_Set env _ d st) as [[[]|p] st2] eqn:Hset.
      * apply Value_Set_inv in Hset
          as [(p & [=] & _) | (n' & fields' & tx & _ & Hc & Hlt & _ & _ & _ & ->)].
        simpl in Hc, Hlt. rewrite Hcell in Hc. injection Hc as <- <-.
        assert (Hcell2 : heap (stored a k n fields d st) !! a
                         = Some (VStruct n (<[k := d]> fields)))
          by (simpl; apply lookup_insert_eq).
        destruct (IH _ _ _ _ _ _ Hrun Hcell2)
          as (fields1 & H1 & Hlen & Hout & Hin).
        exists fields1. split; [done|]. split.
        { rewrite Hlen. apply length_insert. }
        split.
        -- intros i Hi. simpl in Hi. rewrite Hout by lia.
           apply list_lookup_insert_ne. lia.
        -- intros Hr [|j] tf' Hj; simpl in Hj.
           ++ injection Hj as <-. rewrite Hres. rewrite Nat.add_0_r.
              rewrite Hout by lia. by apply list_lookup_insert_eq.
           ++ specialize (Hin Hr j tf' Hj). simpl in Hin.
              replace (k + S j) with (S (k + j)) by lia.
              destruct (resolve (container st) T tf'); try done.
              rewrite Hin. apply list_lookup_insert_ne. lia.
      * apply Value_Set_inv in Hset
          as [(p' & _ & ->) | (n' & fields' & tx & [=] & _)].
        injection Hrun as <- <-.
        exists fields. repeat split; try done.
    + (* missing *)
      injection Hrun as <- <-.
      exists fields. repeat split; try done.
Qed.

End Resolution.

(** ** Injection into one target *)

Section Target.

Variable env : TypeEnv.

Lemma realInjectInto_struct n a performHook st :
  realInjectInto env (VPtr (TStruct n) (Some a)) performHook st
  = match iterateFields_from (performInjection env) (TStruct n) a
            (structFields env n) 0 st with
    | (Done None, st1) =>
        (Done None,
         if performHook && isPostInjector env (VPtr (TStruct n) (Some a))
         then hooked (VPtr (TStruct n) (Some a)) st1 else st1)
    | (Done (Some e), st1) => (Done (Some e), st1)
    | (Panicked p, st1) => (Panicked p, st1)
    end.
Proof.
  unfold realInjectInto, bind, lift. simpl.
  destruct (iterateFields_from _ _ _ _ _ st) as [[[e|]|p] st1]; try done.
  destruct performHook; simpl; [|done].
  rewrite performPostInjectionHook_run.
  by destruct (isPostInjector env _).
Qed.

Lemma iterateFields_from_app callback T a pre post k st :
  iterateFields_from callback T a (pre ++ post) k st
  = match iterateFields_from callback T a pre k st with
    | (Done None, st1) =>
        iterateFields_from callback T a post (k + length pre) st1
    | other => other
    end.
Proof.
  revert k st. induction pre as [|tf rest IH]; intros k st; simpl.
  - by rewrite Nat.add_0_r.
  - unfold bind. destruct (callback _ st) as [[[e|]|p] st1]; try done.
    rewrite IH. by replace (S k + length rest) with (k + S (length rest)) by lia.
Qed.

(** C3. Let the fields declared before [tf] be processed without error,
    reaching state [st1], and let the container have nothing for the
    request of [tf].  Then [InjectInto] returns the error of [tf] and stops
    in [st1]: every earlier field holds what was resolved for it, the
    failing field and all fields declared after it hold what they held
    before the call, and the error names the struct and the field. *)
Theorem InjectInto_aborts_at_first_failure st st1 n a fields pre tf post e :
  heap st !! a = Some (VStruct n fields) →
  structFields env n = pre ++ tf :: post →
  iterateFields_from (performInjection env) (TStruct n) a pre 0 st
  = (Done None, st1) →
  resolve (container st) (TStruct n) tf = Missing e →
  InjectInto env (VPtr (TStruct n) (Some a)) st = (Done (Some e), st1)
  ∧ (∃ fields1,
       heap st1 !! a = Some (VStruct n fields1)
       ∧ (∀ i tfi d, pre !! i = Some tfi →
            resolve (container st) (TStruct n) tfi = Found d →
            fields1 !! i = Some d)
       ∧ (∀ i, length pre ≤ i → fields1 !! i = fields !! i))
  ∧ (∀ target, EvHook target ∈ trace st1 → EvHook target ∈ trace st)
  ∧ (e = MissingTypedDependency (TStruct n) (Name tf) (Type_ tf)
     ∨ ∃ name, e = MissingNamedDependency name (TStruct n) (Name tf)).
Proof.
  intros Hcell Hdecl Hpre Hres.
  assert (Hc1 : container st1 = container st).
  { pose proof (iterateFields_from_footprint env (TStruct n) a pre 0 st) as Hf.
    rewrite Hpre in Hf. apply Hf. }
  split; [|split; [|split]].
  - unfold InjectInto. rewrite realInjectInto_struct, Hdecl.
    rewrite iterateFields_from_app, Hpre. simpl.
    fold (pointOf (TStruct n) a (length pre) tf). unfold bind.
    rewrite performInjection_resolve, Hc1, Hres. done.
  - destruct (iterateFields_from_spec env _ _ _ _ _ _ _ _ _ Hpre Hcell)
      as (fields1 & H1 & _ & Hout & Hin).
    exists fields1. split; [done|]. split.
    + intros i tfi d Hi Hfound. specialize (Hin eq_refl i tfi Hi).
      by rewrite Hfound in Hin.
    + intros i Hi. apply Hout. right. simpl. lia.
  - intros target.
    pose proof (iterateFields_from_footprint env (TStruct n) a pre 0 st) as Hf.
    rewrite Hpre in Hf. simpl in Hf. destruct Hf as [_ _ _ (sets & -> & Hs)].
    rewrite elem_of_app. intros [H|H]; [done|].
    rewrite Forall_forall in Hs. by destruct (Hs _ H) as (i & x & [=]).
  - unfold resolve in Hres.
    destruct (TagParser.parseFieldTag _) as [tag|]; [|done].
    destruct (bool_decide (PkgPath tf = "")); [|done].
    destruct (TagParser.autoInject tag).
    + destruct (dependenciesByType _ !! _); [done|].
      injection Hres as <-. by left.
    + destruct (dependenciesByName _ !! _); [done|].
      injection Hres as <-. right. eauto.
Qed.

End Target.

(** ** Instances that refer to each other *)

Section Wiring.

Variable env : TypeEnv.








End Wiring.



(** ** Registration *)

Lemma Add_run target name st :
  Add target name st
  = let c := mapsStored (container st) target name in
    match isPointerToStruct target with
    | Panicked p => (Panicked p, withContainer c st)
    | Done false => (Done tt, withContainer c st)
    | Done true =>
        if hashable target then
          (Done tt,
           withContainer
             (withSet ({[ target ]} ∪ interfaceSet.set (possibleInjectionSet c)) c)
             st)
        else (Panicked HashOfUnhashableType, withContainer c st)
    end.
Proof.
  unfold Add, bind, getContainer, putContainer, lift, mapsStored, withContainer.
  destruct (decide (name ≠ "")); simpl;
    (destruct (isPointerToStruct target) as [[|]|p]; simpl; [|done|done]);
    unfold interfaceSet.Add; simpl; by destruct (hashable target).
Qed.

Lemma Add_Done_maps target name st st1 :
  Add target name st = (Done tt, st1) →
  dependenciesByName (container st1)
  = dependenciesByName (mapsStored (container st) target name)
  ∧ dependenciesByType (container st1)
    = dependenciesByType (mapsStored (container st) target name).
Proof.
  rewrite Add_run. simpl.
  destruct (isPointerToStruct target) as [[|]|p]; [| |done].
  - destruct (hashable target); [|done]. by intros [= <-].
  - by intros [= <-].
Qed.

Lemma AddAll_app pre post st :
  AddAll (pre ++ post) st = bind (AddAll pre) (λ _, AddAll post) st.
Proof.
  revert st. induction pre as [|[target name] rest IH]; intros st; simpl;
    [reflexivity|].
  unfold bind. destruct (Add target name st) as [[[]|p] st1]; [|done].
  by rewrite IH.
Qed.

Lemma AddAll_cons_inv target name rest st st1 :
  AddAll ((target, name) :: rest) st = (Done tt, st1) →
  ∃ st', Add target name st = (Done tt, st') ∧ AddAll rest st' = (Done tt, st1).
Proof.
  simpl. unfold bind.
  destruct (Add target name st) as [[[]|p] st']; [|done]. eauto.
Qed.

Lemma AddAll_app_inv pre post st st1 :
  AddAll (pre ++ post) st = (Done tt, st1) →
  ∃ st', AddAll pre st = (Done tt, st') ∧ AddAll post st' = (Done tt, st1).
Proof.
  rewrite AddAll_app. unfold bind.
  destruct (AddAll pre st) as [[[]|p] st']; [|done]. eauto.
Qed.

(** Registrations under other names leave a name's entry alone, and
    registrations of other types leave a type's entry alone. *)
Lemma AddAll_other_names adds name :
  ∀ st st1,
    AddAll adds st = (Done tt, st1) →
    (∀ p, p ∈ adds → p.2 ≠ name ∨ name = "") →
    dependenciesByName (container st1) !! name
    = dependenciesByName (container st) !! name.
Proof.
  induction adds as [|[target n] rest IH]; intros st st1 Hrun Hnames.
  - by injection Hrun as <-.
  - apply AddAll_cons_inv in Hrun as (st' & Hadd & Hrest).
    rewrite (IH _ _ Hrest).
    + apply Add_Done_maps in Hadd as [-> _]. simpl.
      destruct (decide (n ≠ "")) as [Hn|]; [|done].
      apply lookup_insert_ne.
      destruct (Hnames (target, n)) as [H| ->]; [by left | done |].
      by intros ->.
    + intros p Hp. apply Hnames. by right.
Qed.

Lemma AddAll_other_types adds T :
  ∀ st st1,
    AddAll adds st = (Done tt, st1) →
    (∀ p, p ∈ adds → TypeOf p.1 ≠ T) →
    dependenciesByType (container st1) !! T
    = dependenciesByType (container st) !! T.
Proof.
  induction adds as [|[target n] rest IH]; intros st st1 Hrun Htypes.
  - by injection Hrun as <-.
  - apply AddAll_cons_inv in Hrun as (st' & Hadd & Hrest).
    rewrite (IH _ _ Hrest).
    + apply Add_Done_maps in Hadd as [_ ->]. simpl.
      apply lookup_insert_ne. apply (Htypes (target, n)). by left.
    + intros p Hp. apply Htypes. by right.
Qed.

(** C8. After a run of registrations in which [(instance, name)], with a
    non-empty name, is the last one under that name, [Get name] returns
    [(instance, true)]; starting from the empty container, [Get] of a name
    under which nothing was registered returns [(nil, false)] and does not
    fail; and the answer of [Get] depends on the name map alone. *)
Theorem Get_returns_registered_instance st adds st1 :
  AddAll adds st = (Done tt, st1) →
  (∀ pre instance name post,
     adds = pre ++ (instance, name) :: post →
     name ≠ "" →
     (∀ p, p ∈ post → p.2 ≠ name) →
     Get name st1 = (Done (instance, true), st1))
  ∧ (∀ name,
       container st = NewContainer →
       (∀ p, p ∈ adds → p.2 ≠ name ∨ name = "") →
       Get name st1 = (Done (VNil, false), st1))
  ∧ (∀ name st2,
       dependenciesByName (container st2) = dependenciesByName (container st1) →
       (Get name st2).1 = (Get name st1).1).
Proof.
  intros Hrun. split; [|split].
  - intros pre instance name post -> Hname Hpost.
    apply AddAll_app_inv in Hrun as (st' & _ & Hrun).
    apply AddAll_cons_inv in Hrun as (st'' & Hadd & Hrest).
    unfold Get, bind, getContainer.
    rewrite (AddAll_other_names post name _ _ Hrest)
      by (intros p Hp; left; by apply Hpost).
    apply Add_Done_maps in Hadd as [-> _]. simpl.
    destruct (decide (name ≠ "")); [|done].
    by rewrite lookup_insert_eq.
  - intros name Hnew Hother. unfold Get, bind, getContainer.
    rewrite (AddAll_other_names _ name _ _ Hrun Hother).
    rewrite Hnew. simpl. by rewrite lookup_empty.
  - intros name st2 Heq. unfold Get, bind, getContainer. rewrite Heq.
    by destruct (dependenciesByName (container st1) !! name).
Qed.

(** C7. A settable field with an auto tag is resolved by its declared type
    in the type map.  After a run of registrations in which [instance] is
    the last one of exactly that type, injection into any such field, in
    any state with that container, stores [instance]; and when, starting
    from the empty container, no registered instance has exactly that
    type, it returns the missing-typed-dependency error and stores
    nothing. *)
Theorem auto_injection_by_exact_type env st adds st1 tf tag :
  AddAll adds st = (Done tt, st1) →
  TagParser.parseFieldTag (Tag_Get (Tag tf) TagParser.summerTag) = Some tag →
  TagParser.autoInject tag = true →
  PkgPath tf = "" →
  (∀ pre instance name post st2 T a k n fields,
     adds = pre ++ (instance, name) :: post →
     TypeOf instance = Some (Type_ tf) →
     (∀ p, p ∈ post → TypeOf p.1 ≠ Some (Type_ tf)) →
     container st2 = container st1 →
     heap st2 !! a = Some (VStruct n fields) →
     k < length fields →
     performInjection env (pointOf T a k tf) st2
     = (Done None, stored a k n fields instance st2))
  ∧ (∀ st2 T a k,
       container st = NewContainer →
       (∀ p, p ∈ adds → TypeOf p.1 ≠ Some (Type_ tf)) →
       container st2 = container st1 →
       performInjection env (pointOf T a k tf) st2
       = (Done (Some (MissingTypedDependency T (Name tf) (Type_ tf))), st2)).
Proof.
  intros Hrun Htag Hauto Hpkg.
  assert (Hres : ∀ c T,
            resolve c T tf
            = match dependenciesByType c !! Some (Type_ tf) with
              | Some d => Found d
              | None => Missing (MissingTypedDependency T (Name tf) (Type_ tf))
              end).
  { intros c T. unfold resolve. rewrite Htag, Hauto.
    by rewrite bool_decide_eq_true_2. }
  split.
  - intros pre instance name post st2 T a k n fields -> Hty Hpost Hc Hcell Hk.
    apply AddAll_app_inv in Hrun as (st' & _ & Hrun).
    apply AddAll_cons_inv in Hrun as (st'' & Hadd & Hrest).
    rewrite performInjection_resolve, Hres, Hc.
    rewrite (AddAll_other_types post _ _ _ Hrest Hpost).
    apply Add_Done_maps in Hadd as [_ ->]. simpl.
    rewrite Hty, lookup_insert_eq.
    rewrite (Value_Set_ok env _ instance st2 n fields (Type_ tf)); simpl;
      try done.
    + by apply bool_decide_eq_true_2.
    + unfold assignable. by rewrite bool_decide_eq_true_2.
  - intros st2 T a k Hnew Hnone Hc.
    rewrite performInjection_resolve, Hres, Hc.
    rewrite (AddAll_other_types adds _ _ _ Hrun Hnone).
    rewrite Hnew. simpl. by rewrite lookup_empty.
Qed.

Lemma singleton_union_twice (x : value) (s : gset value) :
  {[ x ]} ∪ ({[ x ]} ∪ s) = {[ x ]} ∪ s.
Proof. by rewrite (assoc_L (∪)), (idemp_L (∪)). Qed.

(** C9, amended.  For every name and every instance that is neither the
    nil interface nor a struct passed by value, [Add] returns without
    panicking and leaves heap and trace alone; it stores the instance in
    the type map under its dynamic type, in the name map when the name is
    not empty, and in the injectable set when the instance points to a
    struct; and registering the same instance again changes nothing. *)
Theorem Add_completes_for_non_nil_instances instance name st :
  instance ≠ VNil →
  (∀ n fields, instance ≠ VStruct n fields) →
  ∃ st1,
    Add instance name st = (Done tt, st1)
    ∧ heap st1 = heap st ∧ trace st1 = trace st
    ∧ dependenciesByType (container st1)
      = <[TypeOf instance := instance]> (dependenciesByType (container st))
    ∧ dependenciesByName (container st1)
      = (if decide (name = "") then dependenciesByName (container st)
         else <[name := instance]> (dependenciesByName (container st)))
    ∧ interfaceSet.set (possibleInjectionSet (container st1))
      = (if pointsToStruct instance
         then {[ instance ]} ∪ interfaceSet.set (possibleInjectionSet (container st))
         else interfaceSet.set (possibleInjectionSet (container st)))
    ∧ Add instance name st1 = (Done tt, st1).
Proof.
  intros Hnil Hstruct.
  assert (Hptr : isPointerToStruct instance = Done (pointsToStruct instance)
                 ∧ hashable instance = true
                 ∨ isPointerToStruct instance = Done false
                   ∧ pointsToStruct instance = false).
  { destruct instance as [| | | |t o|t items|n fields];
      [ done | by right | by right | by right
      | destruct t; (by right) || by left
      | by right
      | by destruct (Hstruct n fields) ]. }
  assert (Hnames : ∀ m : gmap string value,
            (if decide (name ≠ "") then <[name := instance]> m else m)
            = (if decide (name = "") then m else <[name := instance]> m)).
  { intros m. destruct (decide (name ≠ "")), (decide (name = "")); done. }
  assert (Hrun : ∀ st0,
            Add instance name st0
            = (Done tt,
               withContainer
                 (if pointsToStruct instance
                  then withSet
                         ({[ instance ]}
                          ∪ interfaceSet.set (possibleInjectionSet (container st0)))
                         (mapsStored (container st0) instance name)
                  else mapsStored (container st0) instance name) st0)).
  { intros st0. rewrite Add_run. simpl.
    destruct Hptr as [[-> ->] | [-> ->]];
      [destruct (pointsToStruct instance)|]; reflexivity. }
  eexists. split; [apply Hrun|].
  split; [done|]. split; [done|].
  split; [by destruct (pointsToStruct instance)|].
  split; [destruct (pointsToStruct instance); apply Hnames|].
  split; [by destruct (pointsToStruct instance)|].
  rewrite Hrun. unfold withContainer. simpl. do 2 f_equal.
  destruct (pointsToStruct instance); unfold withSet, mapsStored; simpl;
    rewrite insert_insert_eq;
    (destruct (decide (name ≠ "")); [rewrite insert_insert_eq|]);
    rewrite ?singleton_union_twice; reflexivity.
Qed.

(** Registering the nil interface panics in [getDereferencedType], and
    registering a struct value with a slice in it panics in the pending
    set. *)
Lemma Add_nil_instance_panics :
  (Add VNil "dependency" Tests.start).1 = Panicked NilTypeMethodCall
  ∧ (Add (VStruct "config" [VSlice TString []]) "" Tests.start).1
    = Panicked HashOfUnhashableType.
Proof. split; reflexivity. Qed.

(** ** Validation of the target *)

(** Where the validation of [realInjectInto] is right: a scalar, a slice
    and a pointer to anything but a struct get the error and nothing is
    touched; a pointer to a struct passes. *)
Lemma InjectInto_validation env target st :
  (pointsToStruct target = true → isPointerToStruct target = Done true)
  ∧ (target ≠ VNil → (∀ n fields, target ≠ VStruct n fields) →
     pointsToStruct target = false →
     InjectInto env target st = (Done (Some InvalidTargetKind), st)).
Proof.
  split.
  - by destruct target as [| | | |[] o| |].
  - intros Hnil Hstruct Hp.
    destruct target as [| | | |t o|t items|n fields]; try done.
    + by destruct t.
    + by destruct (Hstruct n fields).
Qed.

(** C5, at the inputs where the code departs from the claim.  A struct
    passed by value is not a pointer to a struct, yet it passes the
    validation, and [InjectInto] then panics in [reflect.Value.Elem]
    instead of returning the error; for the nil interface the validation
    itself panics. *)
Theorem InjectInto_struct_value_panics env n fields st :
  isPointerToStruct (VStruct n fields) = Done true
  ∧ InjectInto env (VStruct n fields) st = (Panicked ElemOfNonPointer, st)
  ∧ InjectInto env VNil st = (Panicked NilTypeMethodCall, st).
Proof. repeat split. Qed.

(** ** The grammar of tags *)

Section Grammar.

Import TagParser.

Variable sep : ascii.

Lemma Split_sepFree s : sepFree sep s → Split s sep = [s].
Proof.
  induction s as [|c s IH]; simpl; [done|]. intros [Hc Hs].
  destruct (decide (c = sep)); [done|]. by rewrite IH.
Qed.

Lemma Split_component p s :
  sepFree sep p → Split (p +:+ String sep s) sep = p :: Split s sep.
Proof.
  induction p as [|c p IH]; simpl.
  - intros _. by destruct (decide (sep = sep)).
  - intros [Hc Hp]. destruct (decide (c = sep)); [done|]. by rewrite IH.
Qed.

Lemma Join_cons p q ps :
  Join (p :: q :: ps) sep = p +:+ String sep (Join (q :: ps) sep).
Proof. reflexivity. Qed.

(** Splitting undoes joining separator-free components. *)
Lemma Split_Join p ps :
  Forall (sepFree sep) (p :: ps) → Split (Join (p :: ps) sep) sep = p :: ps.
Proof.
  revert p. induction ps as [|q ps IH]; intros p Hall.
  - apply Forall_cons in Hall as [Hp _]. by apply Split_sepFree.
  - apply Forall_cons in Hall as [Hp Hps].
    rewrite Join_cons.
    etrans; [by apply Split_component|]. f_equal. by apply IH.
Qed.

(** Every string is the join of its components, and they are free of the
    separator. *)
Lemma Join_Split s :
  ∃ p ps, Split s sep = p :: ps ∧ Forall (sepFree sep) (p :: ps)
          ∧ Join (p :: ps) sep = s.
Proof.
  induction s as [|c s (p & ps & Hsplit & Hfree & Hjoin)].
  - exists "", []. repeat split; by repeat constructor.
  - cbn [Split]. rewrite Hsplit. destruct (decide (c = sep)) as [->|Hc].
    + exists "", (p :: ps). split; [done|]. split; [by constructor|].
      by rewrite <- Hjoin.
    + exists (String c p), ps. split; [done|].
      apply Forall_cons in Hfree as [Hp Hps]. split; [by constructor|].
      rewrite <- Hjoin. by destruct ps.
Qed.

End Grammar.

Example parse_empty : TagParser.parseFieldTag "" = None.
Proof. reflexivity. Qed.
Example parse_name : TagParser.parseFieldTag "nameHere" = Some (TagParser.mkFieldTag "nameHere" false).
Proof. reflexivity. Qed.
Example parse_name_comma : TagParser.parseFieldTag "nameHere," = Some (TagParser.mkFieldTag "nameHere" false).
Proof. reflexivity. Qed.
Example parse_auto : TagParser.parseFieldTag ",auto" = Some (TagParser.mkFieldTag "" true).
Proof. reflexivity. Qed.
Example parse_name_auto : TagParser.parseFieldTag "name,auto" = Some (TagParser.mkFieldTag "name" true).
Proof. reflexivity. Qed.

(** C6, amended.  The empty tag is no request.  Every other tag is the
    join, with commas, of a first component and a list of further ones,
    none containing a comma; however many there are, the first is the
    dependency name and [autoInject] holds exactly when a second one exists
    and equals [auto].  So [n] and [n,] name [n] without auto, and [,auto]
    is the empty name with auto. *)
Theorem parseFieldTag_grammar :
  TagParser.parseFieldTag "" = None
  ∧ (∀ rawTag, ∃ name rest,
       Forall (TagParser.sepFree TagParser.separator) (name :: rest)
       ∧ TagParser.Join (name :: rest) TagParser.separator = rawTag)
  ∧ (∀ name rest,
       Forall (TagParser.sepFree TagParser.separator) (name :: rest) →
       TagParser.Join (name :: rest) TagParser.separator ≠ "" →
       TagParser.parseFieldTag (TagParser.Join (name :: rest) TagParser.separator)
       = Some {| TagParser.dependencyName := name;
                 TagParser.autoInject :=
                   match rest with
                   | part2 :: _ => bool_decide (part2 = TagParser.tagAutoInject)
                   | [] => false
                   end |})
  ∧ TagParser.parseFieldTag "n" = Some (TagParser.mkFieldTag "n" false)
  ∧ TagParser.parseFieldTag "n," = Some (TagParser.mkFieldTag "n" false)
  ∧ TagParser.parseFieldTag ",auto" = Some (TagParser.mkFieldTag "" true).
Proof.
  split; [done|]. split; [|split; [|done]].
  - intros rawTag.
    destruct (Join_Split TagParser.separator rawTag) as (p & ps & _ & H1 & H2).
    by exists p, ps.
  - intros name rest Hfree Hne. unfold TagParser.parseFieldTag.
    destruct (decide (_ = "")) as [|_]; [done|].
    rewrite Split_Join by done. simpl.
    destruct rest as [|part2 rest]; simpl; [done|].
    destruct (decide (1 < S (S (length rest)))); [done | lia].
Qed.

(** With a third component the code still reads the second one, where a
    split into at most two parts would compare [auto,x] with [auto]. *)
Lemma parseFieldTag_reads_second_of_many :
  TagParser.parseFieldTag "n,auto,x" = Some (TagParser.mkFieldTag "n" true)
  ∧ TagParser.splitAtFirst "n,auto,x" TagParser.separator = ("n", Some "auto,x")
  ∧ TagParser.parseFieldTag_two_parts "n,auto,x"
    = Some (TagParser.mkFieldTag "n" false).
Proof. repeat split. Qed.

(** ** The package's tests as instances of the theorems *)




Lemma skipping_elements :
  elements (interfaceSet.set (possibleInjectionSet (container Scenarios.skipping)))
  = [Tests.m; Tests.h].
Proof. vm_compute. reflexivity. Qed.

Lemma PerformInjections_hooks_all_or_nothing_witness :
  PerformInjections Tests.env Scenarios.descending Scenarios.ascending
    Scenarios.skipping
  = (Done (Some (MissingNamedDependency "Missing" Tests.missingStruct "Missing")),
     Scenarios.skipping)
  ∧ ∃ sets, Forall isSet sets
            ∧ trace Scenarios.skipping = trace Scenarios.skipping ++ sets.
Proof.
  assert (Hrange : interfaceSet.rangeOrder Scenarios.ascending
                     (possibleInjectionSet (container Scenarios.skipping))).
  { unfold interfaceSet.rangeOrder, Scenarios.ascending. reflexivity. }
  apply (proj1 (PerformInjections_hooks_all_or_nothing Tests.env
                  Scenarios.descending Scenarios.ascending Scenarios.skipping
                  Hrange)
           [Tests.h] Tests.m [] _ Scenarios.skipping Scenarios.skipping).
  - unfold Scenarios.descending. by rewrite skipping_elements.
  - reflexivity.
  - reflexivity.
Defined.

Lemma InjectInto_aborts_at_first_failure_witness :
  InjectInto Tests.env Tests.s Scenarios.partly
  = (Done (Some (MissingNamedDependency "Doesn'tHaveIt" Tests.simpleStruct
                   "UnavailableString")),
     Scenarios.partly_aborted)
  ∧ heap Scenarios.partly_aborted !! 5
    = Some (VStruct "simpleStruct" [VString "ok"; VString ""; VString ""]).
Proof.
  split; [|reflexivity].
  apply (InjectInto_aborts_at_first_failure Tests.env Scenarios.partly
           Scenarios.partly_aborted "simpleStruct" 5
           [VString ""; VString ""; VString ""]
           [Tests.tagged "AvailableString" TString "HasIt"]
           (Tests.tagged "UnavailableString" TString "Doesn'tHaveIt")
           [Tests.tagged "Later" TString "HasIt"]);
    reflexivity.
Defined.

Lemma auto_injection_by_exact_type_witness :
  performInjection Tests.env
    (pointOf Tests.simpleStruct 5 0 Scenarios.autoString)
    (Tests.after (AddAll Scenarios.twoStrings) Tests.start)
  = (Done None,
     stored 5 0 "simpleStruct" [VString ""; VString ""; VString ""]
       (VString "ok") (Tests.after (AddAll Scenarios.twoStrings) Tests.start)).
Proof.
  apply (proj1 (auto_injection_by_exact_type Tests.env Tests.start
                  Scenarios.twoStrings
                  (Tests.after (AddAll Scenarios.twoStrings) Tests.start)
                  Scenarios.autoString (TagParser.mkFieldTag "" true)
                  eq_refl eq_refl eq_refl eq_refl)
           [(VString "first", "")] (VString "ok") "" []).
  - reflexivity.
  - reflexivity.
  - intros p Hp. by apply elem_of_nil in Hp.
  - reflexivity.
  - reflexivity.
  - simpl. lia.
Defined.

Lemma Get_returns_registered_instance_witness :
  Get "nameHere" (Tests.after (AddAll [(VString "value", "nameHere")]) Tests.start)
  = (Done (VString "value", true),
     Tests.after (AddAll [(VString "value", "nameHere")]) Tests.start).
Proof.
  apply (proj1 (Get_returns_registered_instance Tests.start
                  [(VString "value", "nameHere")]
                  (Tests.after (AddAll [(VString "value", "nameHere")]) Tests.start)
                  eq_refl)
           [] (VString "value") "nameHere" []).
  - reflexivity.
  - done.
  - intros p Hp. by apply elem_of_nil in Hp.
Defined.

Lemma Add_completes_for_non_nil_instances_witness :
  ∃ st1,
    Add Tests.s1 "1" Tests.start = (Done tt, st1)
    ∧ heap st1 = heap Tests.start ∧ trace st1 = trace Tests.start
    ∧ dependenciesByType (container st1)
      = <[TypeOf Tests.s1 := Tests.s1]> (dependenciesByType (container Tests.start))
    ∧ dependenciesByName (container st1)
      = (if decide ("1" = "") then dependenciesByName (container Tests.start)
         else <["1" := Tests.s1]> (dependenciesByName (container Tests.start)))
    ∧ interfaceSet.set (possibleInjectionSet (container st1))
      = (if pointsToStruct Tests.s1
         then {[ Tests.s1 ]}
              ∪ interfaceSet.set (possibleInjectionSet (container Tests.start))
         else interfaceSet.set (possibleInjectionSet (container Tests.start)))
    ∧ Add Tests.s1 "1" st1 = (Done tt, st1).
Proof.
  apply (Add_completes_for_non_nil_instances Tests.s1 "1" Tests.start); done.
Defined.

Lemma parseFieldTag_grammar_witness :
  TagParser.parseFieldTag "name,auto"
  = Some (TagParser.mkFieldTag "name" true).
Proof.
  apply (proj1 (proj2 (proj2 parseFieldTag_grammar)) "name" ["auto"]).
  - repeat constructor; done.
  - done.
Defined.

Lemma only_Add_changes_the_container_witness :
  container (InjectInto Tests.env Tests.s Scenarios.partly).2
  = container Scenarios.partly
  ∧ heap (InjectInto Tests.env Tests.s Scenarios.partly).2 !! 3
    = heap Scenarios.partly !! 3.
Proof.
  destruct (proj1 (proj2 (only_Add_changes_the_container Tests.env
                            Scenarios.partly)) Tests.s) as (Hc & Hh & _).
  split; [exact Hc|]. apply Hh. done.
Defined.

(** [TestThrowsErrorWhenAttemptInjectNonStruct]: a pointer to an [int]. *)
Example InjectInto_int_pointer :
  InjectInto Tests.env (VPtr TInt (Some 9)) Tests.start
  = (Done (Some InvalidTargetKind), Tests.start).
Proof. reflexivity. Qed.

(** [TestThrowsErrorOnMissingAutoInject]: nothing registered. *)
Example performInjection_auto_missing :
  performInjection Tests.env (pointOf Tests.simpleStruct 5 0 Scenarios.autoString)
    Tests.start
  = (Done (Some (MissingTypedDependency Tests.simpleStruct "AutoString" TString)),
     Tests.start).
Proof. reflexivity. Qed.

(** A struct registered by value, as [TestAutoInjects] registers one, is
    put into the injectable set, and the bulk injection then panics on it. *)
Example PerformInjections_over_struct_value :
  (bind (Add (VStruct "injectedStruct" [VString ""]) "")
     (λ _, PerformInjections Tests.env Scenarios.ascending Scenarios.ascending)
     Tests.start).1
  = Panicked ElemOfNonPointer.
Proof. vm_compute. reflexivity. Qed.

(** * Further properties of the engine *)

(** ** What an injection leaves in the target *)


Lemma injectFields_lookup env c n fields i :
  injectFields env c n fields !! i
  = match structFields env n !! i with
    | Some tf =>
        match resolve c (TStruct n) tf with
        | Found d => (λ _, d) <$> fields !! i
        | _ => fields !! i
        end
    | None => fields !! i
    end.
Proof.
  unfold injectFields. rewrite list_lookup_imap.
  destruct (structFields env n !! i) as [tf|]; [|by destruct (fields !! i)].
  destruct (resolve c (TStruct n) tf); by destruct (fields !! i).
Qed.

Lemma injectFields_idemp env c n fields :
  injectFields env c n (injectFields env c n fields)
  = injectFields env c n fields.
Proof.
  apply list_eq. intros i. rewrite !injectFields_lookup.
  destruct (structFields env n !! i) as [tf|]; [|done].
  destruct (resolve c (TStruct n) tf); try done.
  by destruct (fields !! i).
Qed.

Lemma injectCell_idemp env c v :
  injectCell env c (injectCell env c v) = injectCell env c v.
Proof. destruct v; simpl; try done. by rewrite injectFields_idemp. Qed.




(** ** The bulk injection does not depend on the order of the visit *)

Section Settling.

Variable env : TypeEnv.
Variable c : Container.
Variable h0 : gmap loc value.

Local Abbreviation settling := (settlingFrom env c h0).


End Settling.


(** ** What registration keeps true *)

Lemma Add_Done_set target name st st1 :
  Add target name st = (Done tt, st1) →
  heap st1 = heap st ∧ trace st1 = trace st
  ∧ ∀ x, x ∈ interfaceSet.set (possibleInjectionSet (container st1))
         ↔ x ∈ interfaceSet.set (possibleInjectionSet (container st))
           ∨ (x = target ∧ isPointerToStruct target = Done true
              ∧ hashable target = true).
Proof.
  rewrite Add_run. simpl.
  destruct (isPointerToStruct target) as [[|]|p] eqn:Hp; [| |done].
  - destruct (hashable target) eqn:Hh; [|done]. intros [= <-]. simpl.
    repeat split; try done.
    + rewrite elem_of_union, elem_of_singleton. intros [->|H]; [right|left]; done.
    + rewrite elem_of_union, elem_of_singleton. intros [H|(-> & _)]; [right|left]; done.
  - intros [= <-]. simpl. repeat split; try done; [by left|].
    by intros [H|(_ & [=] & _)].
Qed.

Lemma AddAll_set adds :
  ∀ st st1,
    AddAll adds st = (Done tt, st1) →
    heap st1 = heap st ∧ trace st1 = trace st
    ∧ ∀ x, x ∈ interfaceSet.set (possibleInjectionSet (container st1))
           ↔ x ∈ interfaceSet.set (possibleInjectionSet (container st))
             ∨ (x ∈ adds.*1 ∧ isPointerToStruct x = Done true
                ∧ hashable x = true).
Proof.
  induction adds as [|[target name] rest IH]; intros st st1 Hrun.
  - injection Hrun as <-. repeat split; try done; [by left|].
    intros [H|(H & _)]; [done|]. by apply elem_of_nil in H.
  - apply AddAll_cons_inv in Hrun as (st' & Hadd & Hrest).
    apply Add_Done_set in Hadd as (Hh & Ht & Hset).
    apply IH in Hrest as (Hh1 & Ht1 & Hset1).
    split; [congruence|]. split; [congruence|].
    intros x. rewrite Hset1, Hset. simpl. rewrite elem_of_cons. split.
    + intros [[H|(-> & Hp & Hhash)]|(Hin & Hp & Hhash)];
        [by left | right; split; [by left|done] | right; split; [by right|done]].
    + intros [H|([->|Hin] & Hp & Hhash)];
        [by left; left | by left; right | by right].
Qed.

(** A registered instance that passes [isPointerToStruct] was hashed, or
    [Add] would have panicked. *)
Lemma AddAll_registered_hashable adds :
  ∀ st st1 x,
    AddAll adds st = (Done tt, st1) →
    x ∈ adds.*1 → isPointerToStruct x = Done true → hashable x = true.
Proof.
  induction adds as [|[target name] rest IH]; intros st st1 x Hrun Hin Hp;
    [by apply elem_of_nil in Hin|].
  apply AddAll_cons_inv in Hrun as (st' & Hadd & Hrest).
  simpl in Hin. apply elem_of_cons in Hin as [->|Hin]; [|by eapply IH].
  rewrite Add_run in Hadd. simpl in Hadd. rewrite Hp in Hadd.
  by destruct (hashable target).
Qed.

(** X4. The injectable set after a run of registrations holds what it
    held before and, of the registered instances, exactly those that pass
    [isPointerToStruct]; heap and trace are not touched.  Starting from
    the empty container, every member is therefore a registered instance
    that can be hashed and is a pointer to a struct or a struct value. *)
Theorem AddAll_injectable_set adds st st1 :
  AddAll adds st = (Done tt, st1) →
  heap st1 = heap st ∧ trace st1 = trace st
  ∧ (∀ x, x ∈ interfaceSet.set (possibleInjectionSet (container st1))
          ↔ x ∈ interfaceSet.set (possibleInjectionSet (container st))
            ∨ (x ∈ adds.*1 ∧ isPointerToStruct x = Done true))
  ∧ (container st = NewContainer →
     ∀ x, x ∈ interfaceSet.set (possibleInjectionSet (container st1)) →
          x ∈ adds.*1 ∧ hashable x = true
          ∧ (pointsToStruct x = true ∨ ∃ n fields, x = VStruct n fields)).
Proof.
  intros Hrun. destruct (AddAll_set adds st st1 Hrun) as (Hh & Ht & Hset).
  split; [done|]. split; [done|]. split.
  - intros x. rewrite Hset. split.
    + intros [H|(Hin & Hp & _)]; [by left | by right].
    + intros [H|[Hin Hp]]; [by left|]. right. split; [done|]. split; [done|].
      by eapply AddAll_registered_hashable.
  - intros Hnew x Hx. apply Hset in Hx as [Hx|(Hin & Hp & Hhash)].
    + rewrite Hnew in Hx. simpl in Hx. by apply not_elem_of_empty in Hx.
    + split; [done|]. split; [done|].
      destruct x as [| | | |t o|t items|n fields]; try done.
      * left. by destruct t.
      * right. eauto.
Qed.

(** X5. After registrations into the empty container, a bulk injection
    that returns no error has called the hook of an instance exactly once
    when the instance was registered (however often, under whatever names),
    passes [isPointerToStruct] and implements [PostInjector], and has
    called no other hook; all hook calls come after all stores. *)
Theorem PerformInjections_hooks_once_per_instance env adds st0 st pick1 pick2 st' :
  container st0 = NewContainer →
  AddAll adds st0 = (Done tt, st) →
  interfaceSet.rangeOrder pick2 (possibleInjectionSet (container st)) →
  PerformInjections env pick1 pick2 st = (Done None, st') →
  ∃ sets hooks,
    trace st' = trace st ++ sets ++ hooks
    ∧ Forall isSet sets
    ∧ NoDup hooks
    ∧ ∀ e, e ∈ hooks
           ↔ ∃ x, e = EvHook x ∧ x ∈ adds.*1
                  ∧ isPointerToStruct x = Done true
                  ∧ isPostInjector env x = true.
Proof.
  intros Hnew Hadds Ho2 Hrun.
  destruct (AddAll_set adds st0 st Hadds) as (_ & _ & Hset).
  rewrite PerformInjections_unfold in Hrun.
  pose proof (injectAll_footprint env
                (pick1 (interfaceSet.set (possibleInjectionSet (container st))))
                None st) as Hf.
  destruct (rangeKeys _ (injectAll env) None st) as [[[e|]|p] st1]; try done.
  injection Hrun as <-. simpl in *.
  destruct Hf as [Hc _ (sets & Ht & Hs)]. rewrite Hc.
  unfold interfaceSet.rangeOrder in Ho2.
  exists sets,
    (EvHook <$> filter (λ k, isPostInjector env k = true)
       (pick2 (interfaceSet.set (possibleInjectionSet (container st))))).
  split; [by rewrite Ht, app_assoc|]. split; [done|]. split.
  - apply NoDup_fmap_2; [by intros x y [=]|]. apply NoDup_filter.
    rewrite Ho2. apply NoDup_elements.
  - intros e. rewrite list_elem_of_fmap. split.
    + intros (x & -> & Hx). apply list_elem_of_filter in Hx as [Hp Hx].
      rewrite Ho2 in Hx. apply elem_of_elements, Hset in Hx
        as [Hx|(Hin & Hptr & _)].
      * rewrite Hnew in Hx. by apply not_elem_of_empty in Hx.
      * by exists x.
    + intros (x & -> & Hin & Hptr & Hp). exists x. split; [done|].
      apply list_elem_of_filter. split; [done|].
      rewrite Ho2. apply elem_of_elements. apply Hset. right.
      split; [done|]. split; [done|]. by eapply AddAll_registered_hashable.
Qed.

Lemma AddAll_typeMapKeyed adds :
  ∀ st st1,
    AddAll adds st = (Done tt, st1) →
    typeMapKeyed (container st) → typeMapKeyed (container st1).
Proof.
  induction adds as [|[target name] rest IH]; intros st st1 Hrun Hkeyed.
  - by injection Hrun as <-.
  - apply AddAll_cons_inv in Hrun as (st' & Hadd & Hrest).
    apply (IH _ _ Hrest). intros T v.
    apply Add_Done_maps in Hadd as [_ ->]. simpl.
    destruct (decide (TypeOf target = T)) as [<-|Hne].
    + rewrite lookup_insert_eq. by intros [= <-].
    + rewrite lookup_insert_ne by done. apply Hkeyed.
Qed.

(** X6. In a container built by registrations from the empty one, every
    entry of the type map is stored under the dynamic type of its value.
    Auto-injection into a settable field of a live struct therefore never
    panics: it stores a dependency whose type is exactly the field's
    declared type, or it returns the missing-type error and stores
    nothing. *)
Theorem auto_injection_never_panics env adds st0 st1 st T a k tf n fields :
  container st0 = NewContainer →
  AddAll adds st0 = (Done tt, st1) →
  container st = container st1 →
  PkgPath tf = "" →
  heap st !! a = Some (VStruct n fields) →
  k < length fields →
  typeMapKeyed (container st)
  ∧ (performAutoInjection env (pointOf T a k tf) st
       = (Done (Some (MissingTypedDependency T (Name tf) (Type_ tf))), st)
     ∨ ∃ d, TypeOf d = Some (Type_ tf)
            ∧ performAutoInjection env (pointOf T a k tf) st
              = (Done None, stored a k n fields d st)).
Proof.
  intros Hnew Hrun Hc Hpkg Hcell Hk.
  assert (Hkeyed : typeMapKeyed (container st)).
  { rewrite Hc. apply (AddAll_typeMapKeyed adds st0 _ Hrun).
    rewrite Hnew. intros T' v. simpl. by rewrite lookup_empty. }
  split; [done|].
  unfold performAutoInjection, bind, getContainer. simpl.
  destruct (dependenciesByType (container st) !! Some (Type_ tf)) as [d|] eqn:Hd;
    [right | by left].
  exists d. split; [by apply Hkeyed|].
  rewrite (Value_Set_ok env _ d st n fields (Type_ tf)); simpl; try done.
  - by apply bool_decide_eq_true_2.
  - by apply Hkeyed.
  - unfold assignable. by rewrite bool_decide_eq_true_2.
Qed.

(** X7. A settable field with a name tag is resolved in the name map.
    After a run of registrations in which [instance] is the last one under
    the field's non-empty name, injection into the field stores [instance]
    when its type is assignable to the field's type, and panics in
    [reflect]'s [Set], storing nothing, when it is not; the container
    never checks the types of named dependencies. *)
Theorem named_injection_stores_or_panics env st adds st1 tf tag
    pre instance name post tx st2 T a k n fields :
  AddAll adds st = (Done tt, st1) →
  TagParser.parseFieldTag (Tag_Get (Tag tf) TagParser.summerTag) = Some tag →
  TagParser.autoInject tag = false →
  TagParser.dependencyName tag = name →
  PkgPath tf = "" →
  adds = pre ++ (instance, name) :: post →
  name ≠ "" →
  (∀ p, p ∈ post → p.2 ≠ name) →
  TypeOf instance = Some tx →
  container st2 = container st1 →
  heap st2 !! a = Some (VStruct n fields) →
  k < length fields →
  performInjection env (pointOf T a k tf) st2
  = if assignable env tx (Type_ tf)
    then (Done None, stored a k n fields instance st2)
    else (Panicked SetNotAssignable, st2).
Proof.
  intros Hrun Htag Hauto Hname Hpkg -> Hne Hpost Htx Hc Hcell Hk.
  apply AddAll_app_inv in Hrun as (st' & _ & Hrun).
  apply AddAll_cons_inv in Hrun as (st'' & Hadd & Hrest).
  assert (Hfound : dependenciesByName (container st2) !! name = Some instance).
  { rewrite Hc, (AddAll_other_names post name _ _ Hrest)
      by (intros p Hp; left; by apply Hpost).
    apply Add_Done_maps in Hadd as [-> _]. simpl.
    destruct (decide (name ≠ "")); [|done]. by rewrite lookup_insert_eq. }
  unfold performInjection. simpl. rewrite Htag, Hauto.
  rewrite (bool_decide_eq_true_2 _ Hpkg). simpl.
  unfold performNamedInjection, bind, getContainer. simpl.
  rewrite Hname, Hfound.
  destruct (assignable env tx (Type_ tf)) eqn:Hassign.
  - rewrite (Value_Set_ok env _ instance st2 n fields tx); simpl; try done.
    by apply bool_decide_eq_true_2.
  - unfold Value_Set. simpl.
    by rewrite (bool_decide_eq_true_2 _ Hpkg), Htx, Hassign.
Qed.

(** X8. [Add] never stores under the empty name.  In a container built by
    registrations from the empty one, a settable field whose tag has an
    empty name and no auto keyword (such as [","]) is therefore never
    served: injection returns the missing-named-dependency error for the
    empty name and stores nothing. *)
Theorem empty_name_is_never_served env adds st0 st1 st tf tag T a k :
  container st0 = NewContainer →
  AddAll adds st0 = (Done tt, st1) →
  container st = container st1 →
  TagParser.parseFieldTag (Tag_Get (Tag tf) TagParser.summerTag) = Some tag →
  TagParser.autoInject tag = false →
  TagParser.dependencyName tag = "" →
  PkgPath tf = "" →
  dependenciesByName (container st) !! "" = None
  ∧ performInjection env (pointOf T a k tf) st
    = (Done (Some (MissingNamedDependency "" T (Name tf))), st).
Proof.
  intros Hnew Hrun Hc Htag Hauto Hname Hpkg.
  assert (Hnone : dependenciesByName (container st) !! "" = None).
  { rewrite Hc, (AddAll_other_names adds "" _ _ Hrun) by (intros; by right).
    rewrite Hnew. simpl. by rewrite lookup_empty. }
  split; [done|].
  unfold performInjection. simpl. rewrite Htag, Hauto.
  rewrite (bool_decide_eq_true_2 _ Hpkg). simpl.
  unfold performNamedInjection, bind, getContainer. simpl.
  by rewrite Hname, Hnone.
Qed.

(** ** Fields that ask for nothing, and containers that hold nothing *)







(** X11. Instances that do not pass [isPointerToStruct] (strings, numbers,
    slices, pointers to anything but a struct) are never put into the
    injectable set: after registering only such instances into the empty
    container, [PerformInjections] returns no error and changes
    nothing. *)
Theorem PerformInjections_without_injectables env adds st0 st pick1 pick2 :
  container st0 = NewContainer →
  AddAll adds st0 = (Done tt, st) →
  (∀ x, x ∈ adds.*1 → isPointerToStruct x = Done false) →
  interfaceSet.rangeOrder pick1 (possibleInjectionSet (container st)) →
  interfaceSet.rangeOrder pick2 (possibleInjectionSet (container st)) →
  interfaceSet.set (possibleInjectionSet (container st)) = ∅
  ∧ PerformInjections env pick1 pick2 st = (Done None, st).
Proof.
  intros Hnew Hrun Hnone Ho1 Ho2.
  destruct (AddAll_set adds st0 st Hrun) as (_ & _ & Hset).
  assert (Hempty : interfaceSet.set (possibleInjectionSet (container st)) = ∅).
  { apply elem_of_equiv_empty_L. intros x Hx.
    apply Hset in Hx as [Hx|(Hin & Hp & _)].
    - rewrite Hnew in Hx. by apply not_elem_of_empty in Hx.
    - by rewrite (Hnone x Hin) in Hp. }
  split; [done|].
  unfold interfaceSet.rangeOrder in *. rewrite Hempty, elements_empty in Ho1, Ho2.
  apply Permutation_nil_r in Ho1, Ho2.
  rewrite PerformInjections_unfold, Hempty, Ho1. simpl. rewrite Hempty, Ho2.
  simpl. rewrite app_nil_r. by destruct st.
Qed.

(** ** Which error comes from where *)

Lemma resolve_Missing_kind c T tf e :
  resolve c T tf = Missing e → e ≠ InvalidTargetKind.
Proof.
  unfold resolve. destruct (TagParser.parseFieldTag _) as [tag|]; [|done].
  destruct (bool_decide (PkgPath tf = "")); [|done].
  destruct (TagParser.autoInject tag).
  - destruct (dependenciesByType c !! _); [done|]. by intros [= <-].
  - destruct (dependenciesByName c !! _); [done|]. by intros [= <-].
Qed.

Lemma iterateFields_from_error_kind env T a fs :
  ∀ k st e,
    (iterateFields_from (performInjection env) T a fs k st).1 = Done (Some e) →
    e ≠ InvalidTargetKind.
Proof.
  induction fs as [|tf rest IH]; intros k st e; simpl; [done|].
  fold (pointOf T a k tf). unfold bind. rewrite performInjection_resolve.
  destruct (resolve (container st) T tf) as [|d|e'] eqn:Hres.
  - apply IH.
  - destruct (Value_Set env _ d st) as [[[]|p] st1]; [apply IH | done].
  - simpl. intros [= <-]. by eapply resolve_Missing_kind.
Qed.

Lemma realInjectInto_InvalidTargetKind env target performHook st :
  (realInjectInto env target performHook st).1 = Done (Some InvalidTargetKind) →
  isPointerToStruct target = Done false.
Proof.
  unfold realInjectInto, bind, lift.
  destruct (isPointerToStruct target) as [[|]|p] eqn:Hp; simpl; [|done|done].
  intros Hrun. exfalso.
  destruct target as [| | | |t [a|]| |]; try done.
  destruct t; try done. simpl in Hrun.
  pose proof (iterateFields_from_error_kind env (TStruct name) a
                (structFields env name) 0 st InvalidTargetKind) as Hkind.
  destruct (iterateFields_from _ _ _ _ _ st) as [[[e|]|p] st1]; simpl in *.
  - injection Hrun as ->. by apply Hkind.
  - destruct performHook; [rewrite performPostInjectionHook_run in Hrun|];
      done.
  - done.
Qed.

(** X12. [InjectInto] returns the invalid-target error exactly when the
    target is not nil and its type, after one dereference of a pointer, is
    not of kind struct; it then leaves the whole state as it was.  No
    field error is ever mistaken for it. *)
Theorem InjectInto_InvalidTargetKind_iff env target st :
  ((InjectInto env target st).1 = Done (Some InvalidTargetKind)
   ↔ isPointerToStruct target = Done false)
  ∧ (isPointerToStruct target = Done false
     ↔ ∃ t, TypeOf target = Some t
            ∧ Kind t ≠ Struct
            ∧ (Kind t = Ptr → Kind (Elem t) ≠ Struct))
  ∧ (isPointerToStruct target = Done false →
     InjectInto env target st = (Done (Some InvalidTargetKind), st)).
Proof.
  assert (Hret : isPointerToStruct target = Done false →
                 InjectInto env target st = (Done (Some InvalidTargetKind), st)).
  { intros Hp. unfold InjectInto, realInjectInto, bind, lift. by rewrite Hp. }
  split; [|split; [|done]].
  - split; [apply realInjectInto_InvalidTargetKind|].
    intros Hp. by rewrite (Hret Hp).
  - unfold isPointerToStruct, getDereferencedType.
    destruct (TypeOf target) as [t|]; [|split; [done | by intros (t & [=] & _)]].
    split.
    + intros Hp. exists t. split; [done|].
      destruct (decide (Kind t = Ptr)) as [Hk|Hk].
      * injection Hp as Hp. apply bool_decide_eq_false in Hp.
        split; [congruence | done].
      * injection Hp as Hp. apply bool_decide_eq_false in Hp.
        split; [done | by intros ?].
    + intros (t' & [= <-] & Hns & Hptr).
      destruct (decide (Kind t = Ptr)) as [Hk|Hk]; f_equal;
        apply bool_decide_eq_false_2; auto.
Qed.

Lemma injectAll_error_kind env order :
  ∀ st e,
    Forall (λ k, isPointerToStruct k = Done true) order →
    (rangeKeys order (injectAll env) None st).1 = Done (Some e) →
    e ≠ InvalidTargetKind.
Proof.
  induction order as [|key rest IH]; intros st e Hall; simpl; [done|].
  apply Forall_cons in Hall as [Hkey Hrest]. unfold bind.
  pose proof (realInjectInto_InvalidTargetKind env key false st) as Hk.
  destruct (realInjectInto env key false st) as [[[e'|]|p] st1]; simpl in *.
  - rewrite rangeKeys_failed. simpl. intros [= <-] ->.
    by rewrite Hk in Hkey.
  - by apply IH.
  - done.
Qed.

(** X13. The bulk injection never reports an invalid target: the members
    of the injectable set of a container built by registrations from the
    empty one all pass [isPointerToStruct], so an error returned by
    [PerformInjections] is always a missing dependency. *)
Theorem PerformInjections_never_InvalidTargetKind env adds st0 st pick1 pick2 :
  container st0 = NewContainer →
  AddAll adds st0 = (Done tt, st) →
  interfaceSet.rangeOrder pick1 (possibleInjectionSet (container st)) →
  ∀ e, (PerformInjections env pick1 pick2 st).1 = Done (Some e) →
       (∃ name T field, e = MissingNamedDependency name T field)
       ∨ (∃ T field M, e = MissingTypedDependency T field M).
Proof.
  intros Hnew Hrun Ho1 e Hres.
  destruct (AddAll_set adds st0 st Hrun) as (_ & _ & Hset).
  assert (Hall : Forall (λ k, isPointerToStruct k = Done true)
                   (pick1 (interfaceSet.set (possibleInjectionSet (container st))))).
  { apply Forall_forall. intros x Hx. unfold interfaceSet.rangeOrder in Ho1.
    rewrite Ho1 in Hx. apply elem_of_elements, Hset in Hx as [Hx|(_ & Hp & _)];
      [|done].
    rewrite Hnew in Hx. by apply not_elem_of_empty in Hx. }
  rewrite PerformInjections_unfold in Hres.
  pose proof (injectAll_error_kind env _ st e Hall) as Hkind.
  destruct (rangeKeys _ (injectAll env) None st) as [[[e'|]|p] st1];
    simpl in *; try done.
  injection Hres as ->. specialize (Hkind eq_refl).
  destruct e; [done | left; eauto | right; eauto].
Qed.

(** X14. A nil pointer to a struct is accepted by [Add], which puts it
    into the injectable set, and by the validation of [InjectInto]; the
    injection itself then panics, because the zero [reflect.Value] that
    [Elem] returns for a nil pointer has no type. *)
Theorem nil_struct_pointer_is_registered_but_panics env n name st :
  (∃ st1,
     Add (VPtr (TStruct n) None) name st = (Done tt, st1)
     ∧ VPtr (TStruct n) None
       ∈ interfaceSet.set (possibleInjectionSet (container st1)))
  ∧ InjectInto env (VPtr (TStruct n) None) st = (Panicked TypeOfZeroValue, st)
  ∧ ∀ pick1 pick2 rest,
      pick1 (interfaceSet.set (possibleInjectionSet (container st)))
      = VPtr (TStruct n) None :: rest →
      PerformInjections env pick1 pick2 st = (Panicked TypeOfZeroValue, st).
Proof.
  split; [|split].
  - eexists. split; [by rewrite Add_run|]. simpl.
    apply elem_of_union_l. by apply elem_of_singleton.
  - reflexivity.
  - intros pick1 pick2 rest Hpick.
    by rewrite PerformInjections_unfold, Hpick.
Qed.

(** ** The order of the stores *)

Lemma iterateFields_from_stores env T a fs :
  ∀ k st,
    ∃ sets,
      trace (iterateFields_from (performInjection env) T a fs k st).2
      = trace st ++ sets
      ∧ Forall (λ e, ∃ i x, e = EvSet a i x ∧ k ≤ i < k + length fs) sets
      ∧ StronglySorted (λ e1 e2, storeIndex e1 < storeIndex e2) sets.
Proof.
  induction fs as [|tf rest IH]; intros k st; simpl.
  - exists []. rewrite app_nil_r. repeat split; constructor.
  - fold (pointOf T a k tf). unfold bind. rewrite performInjection_resolve.
    destruct (resolve (container st) T tf) as [|d|e] eqn:Hres.
    + destruct (IH (S k) st) as (sets & Ht & Hb & Hs). exists sets.
      split; [done|]. split; [|done].
      eapply Forall_impl; [exact Hb|].
      intros e (i & x & -> & Hi). exists i, x. split; [done | lia].
    + destruct (Value_Set env _ d st) as [[[]|p] st1] eqn:Hset.
      * apply Value_Set_inv in Hset
          as [(p & [=] & _) | (n' & fields' & tx & _ & _ & _ & _ & _ & _ & ->)].
        simpl.
        destruct (IH (S k) (stored a k n' fields' d st)) as (sets & Ht & Hb & Hs).
        exists (EvSet a k d :: sets). split; [|split].
        -- rewrite Ht. simpl. by rewrite <- app_assoc.
        -- constructor; [exists k, d; split; [done | lia]|].
           eapply Forall_impl; [exact Hb|].
           intros e (i & x & -> & Hi). exists i, x. split; [done | lia].
        -- constructor; [done|].
           eapply Forall_impl; [exact Hb|].
           intros e (i & x & -> & Hi). simpl. lia.
      * apply Value_Set_inv in Hset
          as [(p' & _ & ->) | (n' & fields' & tx & [=] & _)].
        exists []. simpl. rewrite app_nil_r. repeat split; constructor.
    + exists []. simpl. rewrite app_nil_r. repeat split; constructor.
Qed.

(** X15. [InjectInto] into a pointer to a struct stores into fields of
    that struct only, in declaration order and into each field at most
    once: the stores of the call carry strictly increasing field indices
    below the number of declared fields, and only a hook call can follow
    them. *)
Theorem InjectInto_stores_in_declaration_order env n a st :
  ∃ sets hooks,
    trace (InjectInto env (VPtr (TStruct n) (Some a)) st).2
    = trace st ++ sets ++ hooks
    ∧ Forall (λ e, ∃ i x, e = EvSet a i x ∧ i < length (structFields env n)) sets
    ∧ StronglySorted (λ e1 e2, storeIndex e1 < storeIndex e2) sets
    ∧ (hooks = [] ∨ hooks = [EvHook (VPtr (TStruct n) (Some a))]).
Proof.
  destruct (iterateFields_from_stores env (TStruct n) a (structFields env n) 0 st)
    as (sets & Ht & Hb & Hs).
  assert (Hb' : Forall (λ e, ∃ i x, e = EvSet a i x
                                   ∧ i < length (structFields env n)) sets).
  { eapply Forall_impl; [exact Hb|]. intros ev (i & x & -> & Hi).
    exists i, x. split; [done | lia]. }
  unfold InjectInto. rewrite realInjectInto_struct.
  destruct (iterateFields_from _ _ _ _ _ st) as [[[e|]|p] st1]; simpl in *.
  - exists sets, []. rewrite app_nil_r.
    split; [done|]. split; [done|]. split; [done|]. by left.
  - destruct (isPostInjector env _); simpl.
    + exists sets, [EvHook (VPtr (TStruct n) (Some a))].
      rewrite Ht, <- app_assoc.
      split; [done|]. split; [done|]. split; [done|]. by right.
    + exists sets, []. rewrite app_nil_r.
      split; [done|]. split; [done|]. split; [done|]. by left.
  - exists sets, []. rewrite app_nil_r.
    split; [done|]. split; [done|]. split; [done|]. by left.
Qed.

(** ** The pending set *)


(** ** The further properties on the package's tests *)






Lemma AddAll_injectable_set_witness :
  Tests.s1 ∈ interfaceSet.set
               (possibleInjectionSet
                  (container (Tests.after (AddAll Scenarios.circularAdds)
                                Tests.start))).
Proof.
  apply (proj1 (proj2 (proj2 (AddAll_injectable_set Scenarios.circularAdds
                                Tests.start
                                (Tests.after (AddAll Scenarios.circularAdds)
                                   Tests.start) eq_refl)))).
  right. split; [|reflexivity]. simpl. by left.
Defined.

Lemma PerformInjections_hooks_once_per_instance_witness :
  ∃ sets hooks,
    trace (Tests.after
             (PerformInjections Tests.env Scenarios.ascending Scenarios.ascending)
             (Tests.after (AddAll Scenarios.hookTwice) Tests.start))
    = trace (Tests.after (AddAll Scenarios.hookTwice) Tests.start) ++ sets ++ hooks
    ∧ Forall isSet sets
    ∧ NoDup hooks
    ∧ ∀ e, e ∈ hooks
           ↔ ∃ x, e = EvHook x ∧ x ∈ Scenarios.hookTwice.*1
                  ∧ isPointerToStruct x = Done true
                  ∧ isPostInjector Tests.env x = true.
Proof.
  apply (PerformInjections_hooks_once_per_instance Tests.env Scenarios.hookTwice
           Tests.start (Tests.after (AddAll Scenarios.hookTwice) Tests.start)
           Scenarios.ascending Scenarios.ascending).
  - reflexivity.
  - reflexivity.
  - unfold interfaceSet.rangeOrder, Scenarios.ascending. reflexivity.
  - vm_compute. reflexivity.
Defined.

Lemma auto_injection_never_panics_witness :
  typeMapKeyed (container (Tests.after (AddAll Scenarios.twoStrings) Tests.start))
  ∧ (performAutoInjection Tests.env
       (pointOf Tests.simpleStruct 5 0 Scenarios.autoString)
       (Tests.after (AddAll Scenarios.twoStrings) Tests.start)
     = (Done (Some (MissingTypedDependency Tests.simpleStruct "AutoString" TString)),
        Tests.after (AddAll Scenarios.twoStrings) Tests.start)
     ∨ ∃ d, TypeOf d = Some TString
            ∧ performAutoInjection Tests.env
                (pointOf Tests.simpleStruct 5 0 Scenarios.autoString)
                (Tests.after (AddAll Scenarios.twoStrings) Tests.start)
              = (Done None,
                 stored 5 0 "simpleStruct" [VString ""; VString ""; VString ""] d
                   (Tests.after (AddAll Scenarios.twoStrings) Tests.start))).
Proof.
  apply (auto_injection_never_panics Tests.env Scenarios.twoStrings Tests.start
           (Tests.after (AddAll Scenarios.twoStrings) Tests.start)
           (Tests.after (AddAll Scenarios.twoStrings) Tests.start)
           Tests.simpleStruct 5 0 Scenarios.autoString "simpleStruct"
           [VString ""; VString ""; VString ""]);
    try reflexivity.
  simpl. lia.
Defined.

Lemma named_injection_stores_or_panics_witness :
  performInjection Tests.env
    (pointOf Tests.simpleStruct 5 0 (Tests.tagged "AvailableString" TString "HasIt"))
    Scenarios.partly
  = (Done None,
     stored 5 0 "simpleStruct" [VString ""; VString ""; VString ""] (VString "ok")
       Scenarios.partly).
Proof.
  apply (named_injection_stores_or_panics Tests.env Tests.start
           [(VString "ok", "HasIt")] Scenarios.partly
           (Tests.tagged "AvailableString" TString "HasIt")
           (TagParser.mkFieldTag "HasIt" false)
           [] (VString "ok") "HasIt" [] TString Scenarios.partly
           Tests.simpleStruct 5 0 "simpleStruct"
           [VString ""; VString ""; VString ""]);
    try reflexivity.
  - done.
  - intros p Hp. by apply elem_of_nil in Hp.
  - simpl. lia.
Defined.

Lemma empty_name_is_never_served_witness :
  dependenciesByName
    (container (Tests.after (AddAll Scenarios.twoStrings) Tests.start)) !! ""
  = None
  ∧ performInjection Tests.env
      (pointOf Tests.simpleStruct 5 0 Scenarios.oddField)
      (Tests.after (AddAll Scenarios.twoStrings) Tests.start)
    = (Done (Some (MissingNamedDependency "" Tests.simpleStruct "Odd")),
       Tests.after (AddAll Scenarios.twoStrings) Tests.start).
Proof.
  apply (empty_name_is_never_served Tests.env Scenarios.twoStrings Tests.start
           (Tests.after (AddAll Scenarios.twoStrings) Tests.start)
           (Tests.after (AddAll Scenarios.twoStrings) Tests.start)
           Scenarios.oddField (TagParser.mkFieldTag "" false)
           Tests.simpleStruct 5 0);
    reflexivity.
Defined.



Lemma PerformInjections_without_injectables_witness :
  interfaceSet.set
    (possibleInjectionSet
       (container (Tests.after (AddAll Scenarios.twoStrings) Tests.start))) = ∅
  ∧ PerformInjections Tests.env Scenarios.ascending Scenarios.descending
      (Tests.after (AddAll Scenarios.twoStrings) Tests.start)
    = (Done None, Tests.after (AddAll Scenarios.twoStrings) Tests.start).
Proof.
  apply (PerformInjections_without_injectables Tests.env Scenarios.twoStrings
           Tests.start).
  - reflexivity.
  - reflexivity.
  - intros x Hx. simpl in Hx.
    apply elem_of_cons in Hx as [->|Hx];
      [|apply elem_of_cons in Hx as [->|Hx]; [|by apply elem_of_nil in Hx]];
      reflexivity.
  - unfold interfaceSet.rangeOrder, Scenarios.ascending. reflexivity.
  - unfold interfaceSet.rangeOrder, Scenarios.descending.
    apply reverse_Permutation.
Defined.

Lemma InjectInto_InvalidTargetKind_iff_witness :
  InjectInto Tests.env (VPtr TInt (Some 9)) Tests.start
  = (Done (Some InvalidTargetKind), Tests.start).
Proof.
  apply (proj2 (proj2 (InjectInto_InvalidTargetKind_iff Tests.env
                         (VPtr TInt (Some 9)) Tests.start))).
  reflexivity.
Defined.

Lemma PerformInjections_never_InvalidTargetKind_witness :
  (∃ name T field,
     MissingNamedDependency "Missing" Tests.missingStruct "Missing"
     = MissingNamedDependency name T field)
  ∨ (∃ T field M,
       MissingNamedDependency "Missing" Tests.missingStruct "Missing"
       = MissingTypedDependency T field M).
Proof.
  apply (PerformInjections_never_InvalidTargetKind Tests.env
           Scenarios.skippingAdds Tests.start
           (Tests.after (AddAll Scenarios.skippingAdds) Tests.start)
           Scenarios.descending Scenarios.ascending).
  - reflexivity.
  - reflexivity.
  - unfold interfaceSet.rangeOrder, Scenarios.descending.
    apply reverse_Permutation.
  - vm_compute. reflexivity.
Defined.

Lemma nil_struct_pointer_is_registered_but_panics_witness :
  PerformInjections Tests.env Scenarios.ascending Scenarios.ascending
    Scenarios.withNilPointer
  = (Panicked TypeOfZeroValue, Scenarios.withNilPointer).
Proof.
  apply (proj2 (proj2 (nil_struct_pointer_is_registered_but_panics Tests.env
                         "simpleStruct" "" Scenarios.withNilPointer))
           Scenarios.ascending Scenarios.ascending []).
  vm_compute. reflexivity.
Defined.

